(** * pyscriptools / list-directories: the filtered directory tree

    A shallow embedding of [list_project_dirs.py]: the exclusion loader
    [load_exclusions] and the recursive tree builder [build_tree], with the
    operating-system calls they make ([open] + [json.load], [os.listdir],
    [os.path.isdir], [os.path.isfile]) taken as the environment.

    Strings are byte strings holding the UTF-8 encoding of Python's [str];
    byte-wise lexicographic order on UTF-8 coincides with Python's
    code-point order on [str]. *)

From Stdlib Require Import Ascii.
From stdpp Require Import base list strings gmap sorting.



(** ** Exceptions and results *)

(** The exception classes that the calls of this program raise.  The OS-level
    ones ([PermissionError], [FileNotFoundError], [NotADirectoryError],
    [IsADirectoryError]) are distinct subclasses of [OSError]; [OSError]
    itself stands for any other errno. *)
Inductive exn :=
  | PermissionError
  | FileNotFoundError
  | NotADirectoryError
  | IsADirectoryError
  | OSError
  | UnicodeDecodeError
  | JSONDecodeError
  | AttributeError
  | TypeError.

Global Instance exn_eq_dec : EqDecision exn.
Proof. solve_decision. Defined.

Inductive result (A : Type) :=
  | Ok (a : A)
  | Raise (e : exn).
Arguments Ok {A} a.
Arguments Raise {A} e.

(** ** Paths: [posixpath.join] with two arguments *)

Definition startswith_sep (b : string) : bool :=
  match b with
  | String c _ => bool_decide (c = "/"%char)
  | EmptyString => false
  end.

Fixpoint endswith_sep (a : string) : bool :=
  match a with
  | EmptyString => false
  | String c EmptyString => bool_decide (c = "/"%char)
  | String _ a' => endswith_sep a'
  end.

Definition is_empty (a : string) : bool :=
  match a with EmptyString => true | _ => false end.

(** [os.path.join(a, b)]: an absolute [b] replaces [a]; otherwise [b] is
    appended, after a separator unless [a] is empty or already ends in one. *)
Definition join (a b : string) : string :=
  if startswith_sep b then b
  else if is_empty a || endswith_sep a then a +:+ b
  else a +:+ "/" +:+ b.

(** ** The filesystem, as the program observes it *)

Record filesystem := Filesystem {
  (** [os.listdir(p)]: the names in [p], in the storage's own order. *)
  listdir : string → result (list string);
  (** [os.path.isdir(p)] and [os.path.isfile(p)]; both follow symbolic
      links.  They are called inside the [try] block, so the interface lets
      them raise; CPython's implementations answer [False] on any [OSError]
      (see [inspections_quiet]). *)
  isdir : string → result bool;
  isfile : string → result bool;
  (** [os.path.islink(p)]: the program never asks; it is here so that
      statements can speak about symbolic links. *)
  islink : string → bool
}.

(** The calls the traversal makes, in order. *)
Inductive syscall :=
  | Listdir (p : string)
  | Isdir (p : string)
  | Isfile (p : string).

Global Instance syscall_eq_dec : EqDecision syscall.
Proof. solve_decision. Defined.

Definition path_of (c : syscall) : string :=
  match c with Listdir p | Isdir p | Isfile p => p end.

(** ** [rich.tree.Tree]: a label and the children added so far *)

#[local] Unset Elimination Schemes.
Inductive Tree := Node (label : string) (children : list Tree).
#[local] Set Elimination Schemes.

Definition label (t : Tree) : string := match t with Node l _ => l end.
Definition children (t : Tree) : list Tree := match t with Node _ c => c end.

(** [tree.add(x)] appends one child at the end. *)
Definition add_node (t : Tree) (child : Tree) : Tree :=
  Node (label t) (children t ++ [child]).
Definition add (t : Tree) (l : string) : Tree := add_node t (Node l []).

(** The four f-strings of [build_tree] (lines 64, 72, 76, 79). *)
Definition root_label (base_dir : string) : string :=
  "[bold cyan]" +:+ base_dir +:+ "/[/bold cyan]".
Definition dir_label (entry : string) : string :=
  "[bold blue]📂 " +:+ entry +:+ "/[/bold blue]".
Definition file_label (entry : string) : string :=
  "📄 " +:+ entry.
Definition perm_label (base_dir : string) : string :=
  "⚠️ [red]Permission denied: " +:+ base_dir +:+ "[/red]".

(** [sorted(names)]: ascending by [String.le]. *)
Definition sorted (names : list string) : list string :=
  merge_sort String.le names.

(** ** [build_tree] *)

(** What one call leaves behind: the state of the tree object it was given
    (or created), the calls it made, and the exception that is propagating
    out of it, if any. *)
Record run := Run {
  tree_of : Tree;
  calls : list syscall;
  raised : option exn
}.

Section build_tree.
Context (fs : filesystem) (exclude_dirs exclude_files : gset string).

(** Lines 69-76, the body of the [for] loop on one [entry]; [rec] is the
    recursive call of line 73. *)
Definition visit_entry (rec : string → Tree → option run)
    (base_dir entry : string) (tree : Tree) : option run :=
  let full_path := join base_dir entry in
  match isdir fs full_path with
  | Raise e => Some (Run tree [Isdir full_path] (Some e))
  | Ok d =>
    if d && negb (bool_decide (entry ∈ exclude_dirs)) then
      match rec full_path (Node (dir_label entry) []) with
      | None => None
      | Some r =>
        Some (Run (add_node tree (tree_of r))
                  (Isdir full_path :: calls r) (raised r))
      end
    else
      match isfile fs full_path with
      | Raise e => Some (Run tree [Isdir full_path; Isfile full_path] (Some e))
      | Ok f =>
        if f && negb (bool_decide (entry ∈ exclude_files)) then
          Some (Run (add tree (file_label entry))
                    [Isdir full_path; Isfile full_path] None)
        else
          Some (Run tree [Isdir full_path; Isfile full_path] None)
      end
  end.

(** Line 68: the [for] loop; an exception leaves it at once. *)
Fixpoint for_entries (rec : string → Tree → option run)
    (base_dir : string) (entries : list string) (tree : Tree) : option run :=
  match entries with
  | [] => Some (Run tree [] None)
  | entry :: rest =>
    match visit_entry rec base_dir entry tree with
    | None => None
    | Some r =>
      match raised r with
      | Some _ => Some r
      | None =>
        match for_entries rec base_dir rest (tree_of r) with
        | None => None
        | Some r' => Some (Run (tree_of r') (calls r ++ calls r') (raised r'))
        end
      end
    end
  end.

(** Lines 67-76: the [try] block. *)
Definition try_block (rec : string → Tree → option run)
    (base_dir : string) (tree : Tree) : option run :=
  match listdir fs base_dir with
  | Raise e => Some (Run tree [Listdir base_dir] (Some e))
  | Ok names =>
    match for_entries rec base_dir (sorted names) tree with
    | None => None
    | Some r => Some (Run (tree_of r) (Listdir base_dir :: calls r) (raised r))
    end
  end.

(** Lines 78-81: [except PermissionError] and [return tree]. *)
Definition handle (base_dir : string) (r : run) : run :=
  match raised r with
  | Some PermissionError =>
    Run (add (tree_of r) (perm_label base_dir)) (calls r) None
  | _ => r
  end.

(** [build_tree(base_dir, exclude_dirs, exclude_files, tree)].  [fuel]
    bounds the depth of the recursion, as the interpreter's recursion limit
    does; [None] means that the bound was reached before the call finished
    (in CPython a [RecursionError], which no handler of this program
    catches). *)
Fixpoint build_tree (fuel : nat) (base_dir : string) (tree : option Tree)
    : option run :=
  match fuel with
  | O => None
  | S fuel' =>
    let tree := default (Node (root_label base_dir) []) tree in
    handle base_dir <$>
      try_block (λ p t, build_tree fuel' p (Some t)) base_dir tree
  end.
End build_tree.

(** ** [load_exclusions] *)

(** What [json.load] returns: a Python object built from a JSON document.
    A JSON object becomes a [dict] (a later duplicate key overwrites an
    earlier one), hence a finite map. *)
#[local] Unset Elimination Schemes.
Inductive json :=
  | JNull
  | JBool (b : bool)
  | JNumber (literal : string)
  | JString (s : string)
  | JArray (items : list json)
  | JObject (members : gmap string json).
#[local] Set Elimination Schemes.

(** [config.get(key, [])]: only a [dict] has the method. *)
Definition get (config : json) (key : string) : result json :=
  match config with
  | JObject members => Ok (default (JArray []) (members !! key))
  | _ => Raise AttributeError
  end.

(** A byte that continues a UTF-8 sequence: [10xxxxxx]. *)
Definition is_continuation (c : ascii) : bool :=
  match c with
  | Ascii _ _ _ _ _ _ false true => true
  | _ => false
  end.

(** The characters of a [str], each as a one-character [str]. *)
Fixpoint characters_go (cur : option string) (s : string) : list string :=
  match s with
  | EmptyString => option_list (String.rev <$> cur)
  | String c s' =>
    if is_continuation c
    then characters_go (Some (String c (default EmptyString cur))) s'
    else option_list (String.rev <$> cur) ++
         characters_go (Some (String c EmptyString)) s'
  end.
Definition characters : string → list string := characters_go None.

(** [set(x)].  A Python set is represented by its [str] members: the
    program only ever tests entry names, which are [str], for membership,
    and an object of another type never equals a [str].
    Iterating a [list] hashes every item, and a [list] or [dict] item is
    unhashable; a [str] iterates over its characters, a [dict] over its
    keys; the other JSON values are not iterable. *)
Definition str_member (x : json) : result (gset string) :=
  match x with
  | JString s => Ok {[ s ]}
  | JNull | JBool _ | JNumber _ => Ok ∅
  | JArray _ | JObject _ => Raise TypeError
  end.

Fixpoint set_of_items (items : list json) : result (gset string) :=
  match items with
  | [] => Ok ∅
  | x :: rest =>
    match str_member x with
    | Raise e => Raise e
    | Ok s =>
      match set_of_items rest with
      | Raise e => Raise e
      | Ok acc => Ok (s ∪ acc)
      end
    end
  end.

Definition set_ (x : json) : result (gset string) :=
  match x with
  | JArray items => set_of_items items
  | JString s => Ok (list_to_set (characters s))
  | JObject members => Ok (dom members)
  | JNull | JBool _ | JNumber _ => Raise TypeError
  end.

Definition result_bind {A B} (m : result A) (k : A → result B) : result B :=
  match m with
  | Ok a => k a
  | Raise e => Raise e
  end.

(** What a call of [load_exclusions] does: what it returns or raises, and
    the lines it prints. *)
Record loaded := Loaded {
  returned : result (gset string * gset string);
  printed : list string
}.

Definition warning (config_file : string) : string :=
  "⚠️ Warning: '" +:+ config_file +:+ "' not found or has an invalid format.".

Section load_exclusions.
(** Lines 22-23, [open(config_file, "r", encoding="utf-8")] followed by
    [json.load(f)]: the parsed document, or the exception of whichever of
    the two fails. *)
Context (open_json_load : string → result json).

(** Lines 22-24: the [try] block. *)
Definition load_try (config_file : string) : result (gset string * gset string) :=
  result_bind (open_json_load config_file) (λ config,
  result_bind (get config "exclude_dirs") (λ d,
  result_bind (set_ d) (λ dirs,
  result_bind (get config "exclude_files") (λ f,
  result_bind (set_ f) (λ files,
  Ok (dirs, files)))))).

(** [load_exclusions(config_file)], with its
    [except (FileNotFoundError, json.JSONDecodeError)]. *)
Definition load_exclusions (config_file : string) : loaded :=
  match load_try config_file with
  | Raise FileNotFoundError | Raise JSONDecodeError =>
    Loaded (Ok (∅, ∅)) [warning config_file]
  | other => Loaded other []
  end.
End load_exclusions.

(** ** Vocabulary of the statements *)

(** CPython's [os.path.isdir] and [os.path.isfile] catch [OSError] and
    answer [False]: on such a filesystem no inspection raises. *)
Definition inspections_quiet (fs : filesystem) : Prop :=
  ∀ p, (∃ b, isdir fs p = Ok b) ∧ (∃ b, isfile fs p = Ok b).

Fixpoint slash_free (s : string) : bool :=
  match s with
  | EmptyString => true
  | String c s' => negb (bool_decide (c = "/"%char)) && slash_free s'
  end.

(** ** [get_directory] *)

(** A string from the values of its bytes. *)
Definition of_bytes (bytes : list nat) : string :=
  foldr (λ b s, String (ascii_of_nat b) s) EmptyString bytes.

(** The characters for which [str.isspace] holds, in UTF-8: U+0009 to U+000D,
    U+001C to U+0020, U+0085, U+00A0, U+1680, U+2000 to U+200A, U+2028,
    U+2029, U+202F, U+205F and U+3000. *)
Definition whitespace : list string :=
  of_bytes <$>
    [[9]; [10]; [11]; [12]; [13]; [28]; [29]; [30]; [31]; [32]; [194; 133]; [194; 160]; [225; 154; 128];
     [226; 128; 128]; [226; 128; 129]; [226; 128; 130]; [226; 128; 131]; [226; 128; 132]; [226; 128; 133]; [226; 128; 134]; [226; 128; 135]; [226; 128; 136]; [226; 128; 137]; [226; 128; 138]; [226; 128; 168]; [226; 128; 169]; [226; 128; 175]; [226; 129; 159]; [227; 128; 128]].

Definition is_space (ch : string) : bool := bool_decide (ch ∈ whitespace).

Fixpoint dropwhile {A} (f : A → bool) (l : list A) : list A :=
  match l with
  | [] => []
  | x :: l' => if f x then dropwhile f l' else l
  end.

Definition concat_chars (chs : list string) : string :=
  foldr String.app EmptyString chs.

(** [s.strip()]: [s] without its leading and trailing whitespace. *)
Definition strip (s : string) : string :=
  concat_chars
    (reverse (dropwhile is_space (reverse (dropwhile is_space (characters s))))).

(** What the program writes to the terminal: the prompt of [input], a line
    of [print], and the tree given to [console.print]. *)
Inductive output :=
  | Prompted (text : string)
  | Printed (line : string)
  | Rendered (tree : Tree).

(** What [get_directory] consults besides [os.path.isdir]: [os.getcwd()]
    and [os.path.exists(p)]. *)
Record session := Session {
  getcwd : result string;
  path_exists : string → result bool
}.

(** How a call of [get_directory] ends: it returns a path, [input] meets
    the end of the input ([EOFError], which nothing catches), or a call
    raises. *)
Inductive chosen :=
  | Chosen (dir_path : string)
  | EndOfInput
  | Failed (e : exn).

Definition prompt : string :=
  "🔹 Enter the directory to scan (or press Enter to use the current directory): ".
Definition using_current (dir_path : string) : string :=
  "✅ Using current directory: " +:+ dir_path.
Definition invalid_directory : string :=
  "❌ Invalid directory. Please enter a valid path.".

(** [get_directory()], reading the lines that remain on standard input
    ([input] returns a line without its newline).  Each turn of the
    [while True] loop consumes one line. *)
Fixpoint get_directory (fs : filesystem) (os : session) (lines : list string)
    : chosen * list output :=
  match lines with
  | [] => (EndOfInput, [Prompted prompt])
  | line :: rest =>
    let dir_path := strip line in
    if is_empty dir_path then
      match getcwd os with
      | Raise e => (Failed e, [Prompted prompt])
      | Ok cwd => (Chosen cwd, [Prompted prompt; Printed (using_current cwd)])
      end
    else
      match path_exists os dir_path with
      | Raise e => (Failed e, [Prompted prompt])
      | Ok false =>
        let '(c, out) := get_directory fs os rest in
        (c, Prompted prompt :: Printed invalid_directory :: out)
      | Ok true =>
        match isdir fs dir_path with
        | Raise e => (Failed e, [Prompted prompt])
        | Ok true => (Chosen dir_path, [Prompted prompt])
        | Ok false =>
          let '(c, out) := get_directory fs os rest in
          (c, Prompted prompt :: Printed invalid_directory :: out)
        end
      end
  end.

(** ** The module constant and the main block *)

(** [p[:p.rfind('/') + 1]]: [p] up to its last separator. *)
Fixpoint head_of (p : string) : string :=
  match p with
  | EmptyString => EmptyString
  | String c p' =>
    if slash_free p'
    then (if bool_decide (c = "/"%char) then String c EmptyString
          else EmptyString)
    else String c (head_of p')
  end.

(** [head == '/' * len(head)] *)
Fixpoint all_sep (s : string) : bool :=
  match s with
  | EmptyString => true
  | String c s' => bool_decide (c = "/"%char) && all_sep s'
  end.

(** [head.rstrip('/')] *)
Fixpoint rstrip_sep (s : string) : string :=
  match s with
  | EmptyString => EmptyString
  | String c s' =>
    match rstrip_sep s' with
    | EmptyString =>
      if bool_decide (c = "/"%char) then EmptyString else String c EmptyString
    | t => String c t
    end
  end.

(** [posixpath.dirname(p)] *)
Definition dirname (p : string) : string :=
  let head := head_of p in
  if negb (is_empty head) && negb (all_sep head) then rstrip_sep head
  else head.

(** Line 8, [DEFAULT_CONFIG_FILE], for a script at the path [file]. *)
Definition default_config_file (file : string) : string :=
  join (dirname file) "exclusions.json".

(** How the main block ends: normally, by an exception that nothing
    catches, or by [EOFError] at the prompt. *)
Inductive ending :=
  | Finished
  | Uncaught (e : exn)
  | InputEnded.

(** Lines 100-107, once [parse_args] has produced [args.config] (the value
    of [--config], or [DEFAULT_CONFIG_FILE]): load the exclusions, ask for
    the directory, build its tree and hand it to [console.print].  [None]
    means, as for [build_tree], that the recursion bound was reached. *)
Definition main (open_json_load : string → result json) (fs : filesystem)
    (os : session) (fuel : nat) (args_config : string) (lines : list string)
    : option (ending * list output) :=
  let l := load_exclusions open_json_load args_config in
  let warned := Printed <$> printed l in
  match returned l with
  | Raise e => Some (Uncaught e, warned)
  | Ok (EXCLUDE_DIRS, EXCLUDE_FILES) =>
    match get_directory fs os lines with
    | (EndOfInput, asked) => Some (InputEnded, warned ++ asked)
    | (Failed e, asked) => Some (Uncaught e, warned ++ asked)
    | (Chosen project_dir, asked) =>
      match build_tree fs EXCLUDE_DIRS EXCLUDE_FILES fuel project_dir None with
      | None => None
      | Some r =>
        match raised r with
        | Some e => Some (Uncaught e, warned ++ asked)
        | None => Some (Finished, warned ++ asked ++ [Rendered (tree_of r)])
        end
      end
    end
  end.

(** ** Vocabulary of the statements, continued *)

(** A name as [os.listdir] returns it: one non-empty path component. *)
Definition valid_name (e : string) : Prop := e ≠ EmptyString ∧ slash_free e = true.

Definition names_valid (fs : filesystem) : Prop :=
  ∀ p names, listdir fs p = Ok names → Forall valid_name names.

Global Instance valid_name_dec e : Decision (valid_name e).
Proof. unfold valid_name. apply _. Defined.

(** A directory, as both inspections see it. *)
Definition is_directory (fs : filesystem) (p : string) : Prop :=
  isdir fs p = Ok true ∧ isfile fs p = Ok false.

(** What [join] puts in front of a relative name. *)
Definition join_prefix (a : string) : string :=
  if is_empty a || endswith_sep a then a else a +:+ "/".

(** [p] lies strictly below the directory [d]. *)
Definition under (d p : string) : Prop := ∃ rest, p = d +:+ "/" +:+ rest.

(** The child that [build_tree] adds for the entry [e]. *)
Inductive entry_node (e : string) : Tree → Prop :=
  | entry_dir sub : entry_node e (Node (dir_label e) sub)
  | entry_file : entry_node e (Node (file_label e) []).

(** At every level the children are the nodes of an ascending sequence of
    entry names, followed at most by one permission-denied leaf. *)
#[local] Unset Elimination Schemes.
Inductive listing_ordered : Tree → Prop :=
  | listing_ordered_node l names kids tail :
    Forall2 entry_node names kids →
    StronglySorted String.le names →
    (tail = [] ∨ ∃ p, tail = [Node (perm_label p) []]) →
    Forall listing_ordered kids →
    listing_ordered (Node l (kids ++ tail)).
#[local] Set Elimination Schemes.

(** Two filesystems that differ only in the order in which directories
    enumerate their entries. *)
Definition same_listing (a b : result (list string)) : Prop :=
  match a, b with
  | Ok l, Ok l' => l ≡ₚ l'
  | Raise e, Raise e' => e = e'
  | _, _ => False
  end.

Definition same_up_to_order (fs fs' : filesystem) : Prop :=
  ∀ p, same_listing (listdir fs p) (listdir fs' p) ∧
       isdir fs p = isdir fs' p ∧ isfile fs p = isfile fs' p.



(** What a recursive call returns for a fresh directory node. *)
Definition keeps_order (rec : string → Tree → option run) : Prop :=
  ∀ p l r, rec p (Node l []) = Some r →
    label (tree_of r) = l ∧ listing_ordered (tree_of r).

(** A path that [join] extends with a separator: not empty and not ending
    in one. *)
Definition proper (p : string) : Prop :=
  is_empty p = false ∧ endswith_sep p = false.

(** [p] is the directory [d] or lies below it. *)
Definition at_or_under (d p : string) : Prop := p = d ∨ under d p.

(** The child [c] stands for an entry of [entries] that the loop body
    accepted: a directory that is not excluded, or a regular file that is
    not excluded. *)
Definition from_entry (fs : filesystem) (exclude_dirs exclude_files : gset string)
    (base : string) (entries : list string) (c : Tree) : Prop :=
  ∃ e, e ∈ entries ∧
    ((label c = dir_label e ∧
      isdir fs (join base e) = Ok true ∧ (e ∉ exclude_dirs)) ∨
     (c = Node (file_label e) [] ∧
      isfile fs (join base e) = Ok true ∧ (e ∉ exclude_files))).

(** The call [c] belongs to the processing of an entry of [entries] in
    the frame of [base]: it is one of the two inspections of the entry, or a
    call of the traversal that descends into it. *)
Definition for_entry (fs : filesystem) (exclude_dirs exclude_files : gset string)
    (fuel : nat) (base : string) (entries : list string) (c : syscall) : Prop :=
  ∃ e, e ∈ entries ∧
    (c = Isdir (join base e) ∨ c = Isfile (join base e) ∨
     (isdir fs (join base e) = Ok true ∧ (e ∉ exclude_dirs) ∧
      ∃ rs, build_tree fs exclude_dirs exclude_files fuel (join base e)
              (Some (Node (dir_label e) [])) = Some rs ∧
            c ∈ calls rs)).

(** What the loop body leaves behind for an entry that it accepts: for a
    directory that is not excluded a directory node and the listing of the
    directory, for a regular file that is not excluded a file node. *)
Definition accepted (fs : filesystem) (exclude_dirs exclude_files : gset string)
    (base entry : string) (r : run) : Prop :=
  (isdir fs (join base entry) = Ok true → entry ∉ exclude_dirs →
     (∃ sub, Node (dir_label entry) sub ∈ children (tree_of r)) ∧
     Listdir (join base entry) ∈ calls r) ∧
  (isdir fs (join base entry) = Ok false →
   isfile fs (join base entry) = Ok true → entry ∉ exclude_files →
     Node (file_label entry) [] ∈ children (tree_of r)).


(** Prefixing the calls of a run. *)
Definition after (cs : list syscall) (r : run) : run :=
  Run (tree_of r) (cs ++ calls r) (raised r).

(** All the nodes of a tree, the root first, and those below the root. *)
Fixpoint nodes (t : Tree) : list Tree :=
  match t with
  | Node _ kids => t :: flat_map nodes kids
  end.

Definition descendants (t : Tree) : list Tree := flat_map nodes (children t).

(** What a node below the root may be: the node of a directory whose name
    is not excluded, the leaf of a file whose name is not excluded, or a
    permission-denied leaf. *)
Definition node_allowed (exclude_dirs exclude_files : gset string) (n : Tree)
    : Prop :=
  (∃ e, label n = dir_label e ∧ e ∉ exclude_dirs) ∨
  (∃ e, n = Node (file_label e) [] ∧ e ∉ exclude_files) ∨
  (∃ p, n = Node (perm_label p) []).

(** The label that the loop body gives to [entry], if it gives it a node. *)
Definition classify (fs : filesystem) (exclude_dirs exclude_files : gset string)
    (base entry : string) : option string :=
  match isdir fs (join base entry) with
  | Raise _ => None
  | Ok d =>
    if d && negb (bool_decide (entry ∈ exclude_dirs))
    then Some (dir_label entry)
    else
      match isfile fs (join base entry) with
      | Raise _ => None
      | Ok f =>
        if f && negb (bool_decide (entry ∈ exclude_files))
        then Some (file_label entry)
        else None
      end
  end.

(** The listing of [p] that the run [r] contains was made on behalf of an
    entry that [isdir] accepted and whose name is not excluded, in a
    directory [d] that is the root or is itself listed in [r]. *)
Definition listed_as_entry (fs : filesystem) (exclude_dirs : gset string)
    (root : string) (cs : list syscall) (p : string) : Prop :=
  isdir fs p = Ok true ∧
  ∃ d names e,
    (d = root ∨ Listdir d ∈ cs) ∧
    listdir fs d = Ok names ∧ e ∈ names ∧ (e ∉ exclude_dirs) ∧ p = join d e.

(** The run [r], had the node it worked on already held the children
    [kids]. *)
Definition graft (kids : list Tree) (r : run) : run :=
  Run (Node (label (tree_of r)) (kids ++ children (tree_of r)))
      (calls r) (raised r).

(** An item that [set] cannot hash: a [list] or a [dict]. *)
Definition unhashable (x : json) : Prop :=
  match x with
  | JArray _ | JObject _ => True
  | _ => False
  end.

(** A line that [get_directory] answers with its error message: it names,
    once stripped, something that does not exist or is no directory. *)
Definition rejected (fs : filesystem) (os : session) (line : string) : Prop :=
  is_empty (strip line) = false ∧
  (path_exists os (strip line) = Ok false ∨
   (path_exists os (strip line) = Ok true ∧ isdir fs (strip line) = Ok false)).

(** ** Scenarios *)

(** A table of answers, keyed by path. *)
Fixpoint table {A} (rows : list (string * A)) (otherwise : A) (p : string) : A :=
  match rows with
  | [] => otherwise
  | (q, a) :: rest => if bool_decide (q = p) then a else table rest otherwise p
  end.

(** The scenario of the specification: [src/a.py], [.venv/x.txt] and
    [readme.md] under the root. *)
Definition project_fs : filesystem := {|
  listdir := table [("/proj", Ok ["src"; "readme.md"; ".venv"]);
                    ("/proj/src", Ok ["a.py"]);
                    ("/proj/.venv", Ok ["x.txt"])] (Raise NotADirectoryError);
  isdir := table [("/proj", Ok true); ("/proj/src", Ok true);
                  ("/proj/.venv", Ok true)] (Ok false);
  isfile := table [("/proj/src/a.py", Ok true); ("/proj/.venv/x.txt", Ok true);
                   ("/proj/readme.md", Ok true)] (Ok false);
  islink _ := false
|}.

(** What the specification expects of that scenario when [.venv] is
    excluded: [.venv] and what it holds are absent, and [/proj/.venv] is
    inspected but never listed. *)
Definition project_run : run :=
  Run (Node (root_label "/proj")
         [Node (file_label "readme.md") [];
          Node (dir_label "src") [Node (file_label "a.py") []]])
      [Listdir "/proj";
       Isdir "/proj/.venv"; Isfile "/proj/.venv";
       Isdir "/proj/readme.md"; Isfile "/proj/readme.md";
       Isdir "/proj/src"; Listdir "/proj/src";
       Isdir "/proj/src/a.py"; Isfile "/proj/src/a.py"]
      None.

(** A root with a subdirectory that may not be listed, between a file and
    a readable directory. *)
Definition denied_fs : filesystem := {|
  listdir := table [("/r", Ok ["zdir"; "locked"; "a.txt"]);
                    ("/r/locked", Raise PermissionError);
                    ("/r/zdir", Ok ["f"])] (Raise NotADirectoryError);
  isdir := table [("/r", Ok true); ("/r/locked", Ok true);
                  ("/r/zdir", Ok true)] (Ok false);
  isfile := table [("/r/a.txt", Ok true); ("/r/zdir/f", Ok true)] (Ok false);
  islink _ := false
|}.

(** The directory [/r/gone] is removed after [isdir] has seen it and before
    it is listed. *)
Definition vanishing_fs : filesystem := {|
  listdir := table [("/r", Ok ["gone"; "kept.txt"]);
                    ("/r/gone", Raise FileNotFoundError)]
                   (Raise NotADirectoryError);
  isdir := table [("/r", Ok true); ("/r/gone", Ok true)] (Ok false);
  isfile := table [("/r/kept.txt", Ok true)] (Ok false);
  islink _ := false
|}.

(** What the call on [/r] leaves behind there: the node of [gone] is in
    place when its listing fails, and [kept.txt] is never looked at. *)
Definition vanishing_run : run :=
  Run (Node (root_label "/r") [Node (dir_label "gone") []])
      [Listdir "/r"; Isdir "/r/gone"; Listdir "/r/gone"]
      (Some FileNotFoundError).

(** An environment in which inspecting [/r/b] raises. *)
Definition raising_fs : filesystem := {|
  listdir := table [("/r", Ok ["c"; "b"; "a"])] (Raise NotADirectoryError);
  isdir := table [("/r", Ok true); ("/r/b", Raise PermissionError)] (Ok false);
  isfile := table [("/r/a", Ok true); ("/r/c", Ok true)] (Ok false);
  islink _ := false
|}.

(** A configuration directory holding [exclusions.json] with the given
    outcome of opening and parsing it; nothing else exists. *)
Definition config_at (outcome : result json) : string → result json :=
  table [("exclusions.json", outcome)] (Raise FileNotFoundError).

(** [{"exclude_dirs": [".venv", "build", ".venv"], "exclude_files": ["a.log"]}] *)
Definition usual_config : json :=
  JObject {[ "exclude_dirs" := JArray [JString ".venv"; JString "build";
                                       JString ".venv"];
             "exclude_files" := JArray [JString "a.log"] ]}.

(** [project_fs] on a storage that enumerates the root in another order. *)
Definition reordered_fs : filesystem := {|
  listdir p :=
    if bool_decide (p = "/proj") then Ok [".venv"; "src"; "readme.md"]
    else listdir project_fs p;
  isdir := isdir project_fs;
  isfile := isfile project_fs;
  islink := islink project_fs
|}.


(** Three symbolic links under [/r]: to a directory holding the file [x],
    to a regular file, and to nothing. *)
Definition symlink_fs : filesystem := {|
  listdir := table [("/r", Ok ["to_file"; "to_dir"; "dangling"]);
                    ("/r/to_dir", Ok ["x"])] (Raise NotADirectoryError);
  isdir := table [("/r", Ok true); ("/r/to_dir", Ok true)] (Ok false);
  isfile := table [("/r/to_file", Ok true); ("/r/to_dir/x", Ok true)] (Ok false);
  islink := table [("/r/to_dir", true); ("/r/to_file", true);
                   ("/r/dangling", true)] false
|}.

(** A regular file named like an excluded directory, and a directory named
    like an excluded file. *)
Definition clash_fs : filesystem := {|
  listdir := table [("/r", Ok ["notes"; "build"]);
                    ("/r/notes", Ok ["n.txt"])] (Raise NotADirectoryError);
  isdir := table [("/r", Ok true); ("/r/notes", Ok true)] (Ok false);
  isfile := table [("/r/build", Ok true); ("/r/notes/n.txt", Ok true)] (Ok false);
  islink _ := false
|}.

(** A terminal session in [/home/u], on the filesystem of [project_fs]. *)
Definition desk : session := {|
  getcwd := Ok "/home/u";
  path_exists := table [("/proj", Ok true); ("/proj/src", Ok true);
                        ("/proj/readme.md", Ok true)] (Ok false)
|}.

(** [{"exclude_dirs": ["build", ["dist"]]}] *)
Definition nested_config : json :=
  JObject {[ "exclude_dirs" :=
               JArray [JString "build"; JArray [JString "dist"]] ]}.

(** * Properties *)

(** ** The recursion bound *)

Section fuel.
Context (fs : filesystem) (exclude_dirs exclude_files : gset string).

Local Abbreviation visit_entry := (visit_entry fs exclude_dirs exclude_files).
Local Abbreviation for_entries := (for_entries fs exclude_dirs exclude_files).
Local Abbreviation try_block := (try_block fs exclude_dirs exclude_files).
Local Abbreviation build_tree := (build_tree fs exclude_dirs exclude_files).





End fuel.

(** ** Exceptions and the frames they cross *)

Section frames.
Context (fs : filesystem) (exclude_dirs exclude_files : gset string).

Local Abbreviation visit_entry := (visit_entry fs exclude_dirs exclude_files).
Local Abbreviation for_entries := (for_entries fs exclude_dirs exclude_files).
Local Abbreviation try_block := (try_block fs exclude_dirs exclude_files).
Local Abbreviation build_tree := (build_tree fs exclude_dirs exclude_files).

Lemma after_nil r : after [] r = r.
Proof. by destruct r. Qed.

Lemma after_after cs cs' r : after cs (after cs' r) = after (cs ++ cs') r.
Proof. unfold after; simpl. by rewrite (assoc_L (++)). Qed.

Lemma build_tree_unfold fuel base tree :
  build_tree (S fuel) base tree =
  handle base <$> try_block (λ p t, build_tree fuel p (Some t)) base
    (default (Node (root_label base) []) tree).
Proof. done. Qed.

Lemma for_entries_cons rec base entry rest tree :
  for_entries rec base (entry :: rest) tree =
  match visit_entry rec base entry tree with
  | None => None
  | Some r =>
    match raised r with
    | Some _ => Some r
    | None => after (calls r) <$> for_entries rec base rest (tree_of r)
    end
  end.
Proof.
  simpl. destruct (visit_entry _ _ _ _) as [r|]; [|done].
  destruct (raised r); [done|]. by destruct (for_entries _ _ _ _).
Qed.

Lemma for_entries_app rec base l1 l2 tree :
  for_entries rec base (l1 ++ l2) tree =
  match for_entries rec base l1 tree with
  | None => None
  | Some r1 =>
    match raised r1 with
    | Some _ => Some r1
    | None => after (calls r1) <$> for_entries rec base l2 (tree_of r1)
    end
  end.
Proof.
  revert tree. induction l1 as [|entry l1 IH]; intros tree.
  - simpl. destruct (for_entries _ _ _ _) as [r|]; [|done].
    simpl. by rewrite after_nil.
  - rewrite <-app_comm_cons, !for_entries_cons.
    destruct (visit_entry _ _ _ _) as [r|]; [|done].
    destruct (raised r) eqn:Hr; [by rewrite Hr|].
    rewrite IH. destruct (for_entries rec base l1 _) as [r1|]; [|done].
    simpl. destruct (raised r1) eqn:Hr1; [done|].
    destruct (for_entries rec base l2 _) as [r2|]; [|done].
    simpl. by rewrite after_after.
Qed.

(** [except PermissionError] leaves no [PermissionError] for the caller. *)
Lemma handle_not_permission base r :
  raised (handle base r) ≠ Some PermissionError.
Proof.
  unfold handle. destruct (raised r) as [[]|] eqn:Hr; simpl; congruence.
Qed.

Lemma build_tree_not_permission fuel base tree r :
  build_tree fuel base tree = Some r → raised r ≠ Some PermissionError.
Proof.
  destruct fuel as [|fuel]; [done|]. rewrite build_tree_unfold.
  destruct (try_block _ _ _) as [r0|]; [|done].
  intros [= <-]. apply handle_not_permission.
Qed.

Lemma handle_other base r e :
  raised r = Some e → e ≠ PermissionError → handle base r = r.
Proof. unfold handle. intros -> ?. by destruct e. Qed.

(** A [PermissionError] that leaves the loop body comes from one of the
    two inspections, and the tree is as it was before the entry. *)
Lemma visit_entry_permission fuel base entry tree r :
  visit_entry (λ p t, build_tree fuel p (Some t)) base entry tree = Some r →
  raised r = Some PermissionError →
  tree_of r = tree ∧
  (calls r = [Isdir (join base entry)] ∨
   calls r = [Isdir (join base entry); Isfile (join base entry)]).
Proof.
  unfold visit_entry.
  destruct (isdir fs _) as [d|e]; [|intros [= <-]; auto].
  destruct (d && _).
  - destruct (build_tree _ _ _) as [r0|] eqn:Hb; [|done].
    intros [= <-]; simpl. intros Hr.
    by apply build_tree_not_permission in Hb.
  - destruct (isfile fs _) as [f|e]; [|intros [= <-]; auto].
    destruct (f && _); by intros [= <-].
Qed.
End frames.

Section listing_failures.
Context (fs : filesystem) (exclude_dirs exclude_files : gset string).

Local Abbreviation visit_entry := (visit_entry fs exclude_dirs exclude_files).
Local Abbreviation for_entries := (for_entries fs exclude_dirs exclude_files).
Local Abbreviation try_block := (try_block fs exclude_dirs exclude_files).
Local Abbreviation build_tree := (build_tree fs exclude_dirs exclude_files).

(** C2.  When listing [base] fails with a permission error, [build_tree]
    appends exactly one permission-denied leaf, labelled with [base], to
    the node it works on and returns normally; and in the frame of the
    parent, the loop goes on with the remaining entries [rest] from the
    tree that has this one directory node more. *)
Theorem listing_denied_is_local fuel base :
  listdir fs base = Raise PermissionError →
  (∀ tree,
     build_tree (S fuel) base tree =
     Some (Run (add (default (Node (root_label base) []) tree)
                    (perm_label base))
               [Listdir base] None)) ∧
  (∀ parent entry rest tree,
     base = join parent entry →
     isdir fs base = Ok true →
     entry ∉ exclude_dirs →
     for_entries (λ p t, build_tree (S fuel) p (Some t)) parent
       (entry :: rest) tree =
     after [Isdir base; Listdir base] <$>
       for_entries (λ p t, build_tree (S fuel) p (Some t)) parent rest
         (add_node tree
            (Node (dir_label entry) [Node (perm_label base) []]))).
Proof.
  intros Hdenied.
  assert (∀ tree,
     build_tree (S fuel) base tree =
     Some (Run (add (default (Node (root_label base) []) tree)
                    (perm_label base))
               [Listdir base] None)) as Hbuild.
  { intros tree. rewrite build_tree_unfold. unfold try_block.
    by rewrite Hdenied. }
  split; [done|].
  intros parent entry rest tree -> Hdir Hin.
  rewrite for_entries_cons. unfold visit_entry.
  rewrite Hdir, bool_decide_eq_false_2 by done. simpl negb. simpl andb.
  rewrite Hbuild. done.
Qed.

(** Any listing that fails with another exception than [PermissionError]
    ends the whole call with that exception. *)
Lemma listing_failure_surfaces fuel root tree r p e :
  build_tree fuel root tree = Some r →
  Listdir p ∈ calls r →
  listdir fs p = Raise e →
  e ≠ PermissionError →
  raised r = Some e.
Proof.
  intros Hb Hin Hp He. revert root tree r Hb Hin.
  induction fuel as [|fuel IH]; intros root tree r; [done|].
  rewrite build_tree_unfold.
  set (rec := λ q t, build_tree fuel q (Some t)).
  assert (∀ q t r', rec q t = Some r' → Listdir p ∈ calls r' →
            raised r' = Some e) as Hrec by (intros q t r'; apply IH).
  assert (∀ base entry t r', visit_entry rec base entry t = Some r' →
            Listdir p ∈ calls r' → raised r' = Some e) as Hvisit.
  { intros base entry t r'. unfold visit_entry.
    destruct (isdir fs _) as [d|e0].
    2:{ intros [= <-]; simpl. by intros [=]%list_elem_of_singleton. }
    destruct (d && _).
    - destruct (rec _ _) as [r0|] eqn:Hr0; [|done].
      intros [= <-]; simpl. intros [?|?]%elem_of_cons; [done|]. eauto.
    - assert (Listdir p ∉ [Isdir (join base entry); Isfile (join base entry)])
        as Hnot by (by intros [[=]|[=]%list_elem_of_singleton]%elem_of_cons).
      destruct (isfile fs _) as [f|e0]; [|by intros [= <-]].
      destruct (f && _); by intros [= <-]. }
  assert (∀ base entries t r', for_entries rec base entries t = Some r' →
            Listdir p ∈ calls r' → raised r' = Some e) as Hfor.
  { intros base entries. induction entries as [|entry rest IHrest];
      intros t r'; [intros [= <-]; simpl; by intros ?%elem_of_nil|].
    rewrite for_entries_cons.
    destruct (visit_entry _ _ _ _) as [r0|] eqn:Hv; [|done].
    destruct (raised r0) eqn:Hr0; [intros [= <-]; eauto|].
    destruct (for_entries rec base rest _) as [r1|] eqn:Hr1; [|done].
    intros [= <-]; simpl. intros [Hin|Hin]%elem_of_app; [|eauto].
    apply (Hvisit _ _ _ _ Hv) in Hin. congruence. }
  unfold try_block. destruct (listdir fs root) as [names|e0] eqn:Hroot.
  - destruct (for_entries _ _ _ _) as [r0|] eqn:Hr0; [|done].
    intros [= <-] Hin.
    assert (raised r0 = Some e) as Hr.
    { unfold handle in Hin.
      assert (Listdir p ∈ Listdir root :: calls r0) as Hin'.
      { by destruct (raised r0) as [[]|]. }
      apply elem_of_cons in Hin' as [[= ->]|Hin']; [congruence|eauto]. }
    by rewrite (handle_other _ _ e).
  - intros [= <-] Hin.
    assert (Listdir p ∈ [Listdir root]) as [= ->]%list_elem_of_singleton.
    { unfold handle in Hin. simpl in Hin. by destruct e0. }
    assert (e0 = e) as -> by congruence.
    by rewrite (handle_other _ _ e).
Qed.

(** C6, as the code has it.  A listing that fails with an exception other
    than a permission error is not handled: the call on that directory
    records no leaf and raises the exception, and whichever call of
    [build_tree] the failing listing happens in, directly or in a nested
    frame, ends with that exception. *)
Theorem other_listing_failure_propagates fuel base e :
  listdir fs base = Raise e →
  e ≠ PermissionError →
  (∀ tree,
     build_tree (S fuel) base tree =
     Some (Run (default (Node (root_label base) []) tree)
               [Listdir base] (Some e))) ∧
  (∀ fuel' root tree r,
     build_tree fuel' root tree = Some r →
     Listdir base ∈ calls r →
     raised r = Some e).
Proof.
  intros Hfail He. split.
  - intros tree. rewrite build_tree_unfold. unfold try_block.
    rewrite Hfail. simpl. by rewrite (handle_other _ _ e).
  - intros fuel' root tree r Hb Hin.
    by eapply listing_failure_surfaces.
Qed.

(** C10.  When the loop body raises a permission error on [entry], after
    the listing of [base] succeeded and the entries [pre] before it were
    processed, [build_tree] returns normally with the tree as the entries
    [pre] left it plus a single permission-denied leaf labelled with
    [base]; the entries [post] are not looked at, and the only calls made
    for [entry] are its inspections.  (Only an inspection can be the source:
    a recursive call handles its own permission error, and where the
    inspections do not raise, as in CPython, the loop raises none.) *)
Theorem permission_error_midway fuel base tree names pre entry post r1 r2 :
  listdir fs base = Ok names →
  sorted names = pre ++ entry :: post →
  for_entries (λ p t, build_tree fuel p (Some t)) base pre
    (default (Node (root_label base) []) tree) = Some r1 →
  raised r1 = None →
  visit_entry (λ p t, build_tree fuel p (Some t)) base entry (tree_of r1)
    = Some r2 →
  raised r2 = Some PermissionError →
  build_tree (S fuel) base tree =
    Some (Run (add (tree_of r1) (perm_label base))
              (Listdir base :: calls r1 ++ calls r2) None) ∧
  (calls r2 = [Isdir (join base entry)] ∨
   calls r2 = [Isdir (join base entry); Isfile (join base entry)]).
Proof.
  intros Hlist Hsorted Hpre Hr1 Hvisit Hr2.
  destruct (visit_entry_permission _ _ _ _ _ _ _ _ Hvisit Hr2)
    as [Htree Hcalls].
  split; [|done].
  rewrite build_tree_unfold. unfold try_block.
  rewrite Hlist, Hsorted, for_entries_app, Hpre, Hr1, for_entries_cons.
  rewrite Hvisit, Hr2. simpl. unfold handle. simpl.
  by rewrite Hr2, Htree.
Qed.
End listing_failures.

(** The scenario of the specification for a denied subdirectory: the leaf
    stands in place of the children of [locked], and [zdir] still appears. *)
Example denied_tree :
  build_tree denied_fs ∅ ∅ 2 "/r" None =
  Some (Run
    (Node (root_label "/r")
       [Node (file_label "a.txt") [];
        Node (dir_label "locked") [Node (perm_label "/r/locked") []];
        Node (dir_label "zdir") [Node (file_label "f") []]])
    [Listdir "/r"; Isdir "/r/a.txt"; Isfile "/r/a.txt";
     Isdir "/r/locked"; Listdir "/r/locked";
     Isdir "/r/zdir"; Listdir "/r/zdir";
     Isdir "/r/zdir/f"; Isfile "/r/zdir/f"]
    None).
Proof. vm_compute. reflexivity. Qed.

(** On [denied_fs]: the call on [/r/locked], and the loop of [/r] from
    [locked] on. *)
Lemma listing_denied_is_local_witness :
  build_tree denied_fs ∅ ∅ 1 "/r/locked" (Some (Node (dir_label "locked") [])) =
    Some (Run (Node (dir_label "locked") [Node (perm_label "/r/locked") []])
              [Listdir "/r/locked"] None) ∧
  for_entries denied_fs ∅ ∅ (λ p t, build_tree denied_fs ∅ ∅ 1 p (Some t))
    "/r" ["locked"; "zdir"]
    (Node (root_label "/r") [Node (file_label "a.txt") []]) =
  after [Isdir "/r/locked"; Listdir "/r/locked"] <$>
    for_entries denied_fs ∅ ∅ (λ p t, build_tree denied_fs ∅ ∅ 1 p (Some t))
      "/r" ["zdir"]
      (Node (root_label "/r")
         [Node (file_label "a.txt") [];
          Node (dir_label "locked") [Node (perm_label "/r/locked") []]]).
Proof.
  pose proof (listing_denied_is_local denied_fs ∅ ∅ 0 "/r/locked" eq_refl)
    as [Hcall Hparent].
  split.
  - exact (Hcall (Some (Node (dir_label "locked") []))).
  - exact (Hparent "/r" "locked" ["zdir"]
             (Node (root_label "/r") [Node (file_label "a.txt") []])
             eq_refl eq_refl (not_elem_of_empty _)).
Defined.

(** C6 as stated fails: the listing of [/r/gone] raises [FileNotFoundError];
    no leaf is recorded under [gone], the sibling [kept.txt] is never
    reached, and the exception leaves [build_tree]. *)
Lemma other_failure_not_recorded :
  build_tree vanishing_fs ∅ ∅ 2 "/r" None =
  Some (Run (Node (root_label "/r") [Node (dir_label "gone") []])
            [Listdir "/r"; Isdir "/r/gone"; Listdir "/r/gone"]
            (Some FileNotFoundError)).
Proof. vm_compute. reflexivity. Qed.

(** On [vanishing_fs]: the call on [/r/gone] raises, and so does the call on
    [/r] that descends into it. *)
Lemma other_listing_failure_propagates_witness :
  build_tree vanishing_fs ∅ ∅ 1 "/r/gone" None =
    Some (Run (Node (root_label "/r/gone") []) [Listdir "/r/gone"]
              (Some FileNotFoundError)) ∧
  raised <$> build_tree vanishing_fs ∅ ∅ 2 "/r" None =
    Some (Some FileNotFoundError).
Proof.
  assert (FileNotFoundError ≠ PermissionError) as Hne by discriminate.
  pose proof (other_listing_failure_propagates vanishing_fs ∅ ∅ 0 "/r/gone"
                FileNotFoundError eq_refl Hne) as [Hcall Hany].
  split; [exact (Hcall None)|].
  destruct (build_tree vanishing_fs ∅ ∅ 2 "/r" None) as [r|] eqn:Hr;
    [|discriminate Hr].
  simpl. f_equal. apply (Hany 2 "/r" None r Hr).
  injection Hr as <-. right. right. left.
Defined.

(** On [raising_fs]: [a] keeps its node, [b] raises, [c] is not looked at,
    and the leaf names [/r]. *)
Lemma permission_error_midway_witness :
  build_tree raising_fs ∅ ∅ 1 "/r" None =
  Some (Run (Node (root_label "/r")
               [Node (file_label "a") []; Node (perm_label "/r") []])
            [Listdir "/r"; Isdir "/r/a"; Isfile "/r/a"; Isdir "/r/b"]
            None).
Proof.
  exact (proj1 (permission_error_midway raising_fs ∅ ∅ 0 "/r" None
    ["c"; "b"; "a"] ["a"] "b" ["c"]
    (Run (Node (root_label "/r") [Node (file_label "a") []])
         [Isdir "/r/a"; Isfile "/r/a"] None)
    (Run (Node (root_label "/r") [Node (file_label "a") []])
         [Isdir "/r/b"] (Some PermissionError))
    eq_refl eq_refl eq_refl eq_refl eq_refl eq_refl)).
Defined.

(** ** The exclusion loader *)

Example load_usual_config :
  load_exclusions (config_at (Ok usual_config)) "exclusions.json" =
  Loaded (Ok ({[ ".venv"; "build" ]}, {[ "a.log" ]})) [].
Proof. vm_compute. reflexivity. Qed.

(** C5, as the code has it.  When the configuration file is missing
    ([FileNotFoundError]) or its text is not JSON ([JSONDecodeError]),
    [load_exclusions] does not raise: it prints one warning and returns two
    empty sets. *)
Theorem load_missing_or_not_json open_json_load config_file :
  open_json_load config_file = Raise FileNotFoundError ∨
  open_json_load config_file = Raise JSONDecodeError →
  load_exclusions open_json_load config_file =
  Loaded (Ok (∅, ∅)) [warning config_file].
Proof.
  unfold load_exclusions, load_try. by intros [-> | ->].
Qed.

(** A missing file, and a file that is not JSON. *)
Lemma load_missing_or_not_json_witness :
  load_exclusions (config_at (Raise JSONDecodeError)) "absent.json" =
    Loaded (Ok (∅, ∅)) [warning "absent.json"] ∧
  load_exclusions (config_at (Raise JSONDecodeError)) "exclusions.json" =
    Loaded (Ok (∅, ∅)) [warning "exclusions.json"].
Proof.
  split.
  - exact (load_missing_or_not_json (config_at (Raise JSONDecodeError))
             "absent.json" (or_introl eq_refl)).
  - exact (load_missing_or_not_json (config_at (Raise JSONDecodeError))
             "exclusions.json" (or_intror eq_refl)).
Defined.

(** C5 as stated fails.  An unreadable file makes [open] raise
    [PermissionError], which the [except] clause does not name; a document
    that is JSON but not an object has no [get]; an entry that is a number
    cannot be turned into a set; and a string where an array is expected
    yields the set of its characters, without any warning. *)
Lemma load_unreadable_or_ill_formed :
  load_exclusions (config_at (Raise PermissionError)) "exclusions.json" =
    Loaded (Raise PermissionError) [] ∧
  load_exclusions (config_at (Ok (JArray []))) "exclusions.json" =
    Loaded (Raise AttributeError) [] ∧
  load_exclusions
    (config_at (Ok (JObject {[ "exclude_dirs" := JNumber "5" ]})))
    "exclusions.json" =
    Loaded (Raise TypeError) [] ∧
  load_exclusions
    (config_at (Ok (JObject {[ "exclude_dirs" := JString "ab" ]})))
    "exclusions.json" =
    Loaded (Ok ({[ "a"; "b" ]}, ∅)) [].
Proof. repeat split; vm_compute; reflexivity. Qed.

(** ** Order of the children and determinism *)

Lemma sorted_StronglySorted names : StronglySorted String.le (sorted names).
Proof. apply StronglySorted_merge_sort; apply _. Qed.

Lemma sorted_Permutation names names' :
  names ≡ₚ names' → sorted names = sorted names'.
Proof.
  intros Hperm. apply (StronglySorted_unique String.le).
  - apply sorted_StronglySorted.
  - apply sorted_StronglySorted.
  - unfold sorted. by rewrite !merge_sort_Permutation.
Qed.

Lemma StronglySorted_sublist {A} (R : relation A) l l' :
  l' `sublist_of` l → StronglySorted R l → StronglySorted R l'.
Proof.
  induction 1 as [|x l1 l2 Hsub IH|x l1 l2 Hsub IH]; [done|..].
  - intros [Hall Hl2]%StronglySorted_cons. apply StronglySorted_cons.
    split; [|auto]. apply Forall_forall. intros y Hy.
    rewrite Forall_forall in Hall. apply Hall. by eapply elem_of_sublist.
  - intros [_ Hl2]%StronglySorted_cons. auto.
Qed.

Section order.
Context (fs : filesystem) (exclude_dirs exclude_files : gset string).

Local Abbreviation visit_entry := (visit_entry fs exclude_dirs exclude_files).
Local Abbreviation for_entries := (for_entries fs exclude_dirs exclude_files).
Local Abbreviation try_block := (try_block fs exclude_dirs exclude_files).
Local Abbreviation build_tree := (build_tree fs exclude_dirs exclude_files).

Lemma for_entries_ordered rec base entries l kids0 r :
  keeps_order rec →
  for_entries rec base entries (Node l kids0) = Some r →
  ∃ names kids,
    tree_of r = Node l (kids0 ++ kids) ∧
    names `sublist_of` entries ∧
    Forall2 entry_node names kids ∧
    Forall listing_ordered kids.
Proof.
  intros Hrec. revert kids0 r.
  induction entries as [|entry rest IH]; intros kids0 r.
  { intros [= <-]. exists [], []. by rewrite app_nil_r. }
  rewrite for_entries_cons.
  destruct (visit_entry rec base entry (Node l kids0)) as [r0|] eqn:Hv;
    [|done].
  assert (∃ names kids,
    tree_of r0 = Node l (kids0 ++ kids) ∧
    names `sublist_of` [entry] ∧
    Forall2 entry_node names kids ∧
    Forall listing_ordered kids) as (names0 & new0 & Ht0 & Hs0 & Hn0 & Ho0).
  { revert Hv. unfold visit_entry.
    destruct (isdir fs _) as [d|e].
    2:{ intros [= <-]. exists [], []. rewrite app_nil_r.
        split_and!; [done|apply sublist_nil_l|done..]. }
    destruct (d && _).
    - destruct (rec _ _) as [rs|] eqn:Hrs; [|done].
      destruct (Hrec _ _ _ Hrs) as [Hl Ho].
      intros [= <-]. exists [entry], [tree_of rs].
      split_and!; [done|done| |by constructor].
      constructor; [|done]. destruct (tree_of rs) as [l' sub].
      simpl in Hl. subst l'. constructor.
    - destruct (isfile fs _) as [f|e].
      2:{ intros [= <-]. exists [], []. rewrite app_nil_r.
          split_and!; [done|apply sublist_nil_l|done..]. }
      destruct (f && _); intros [= <-].
      + exists [entry], [Node (file_label entry) []].
        split_and!; [done|done|repeat constructor|].
        constructor; [|done].
        apply (listing_ordered_node _ [] [] []); by eauto using SSorted_nil.
      + exists [], []. rewrite app_nil_r.
        split_and!; [done|apply sublist_nil_l|done..]. }
  destruct (raised r0).
  { intros [= <-]. exists names0, new0.
    split_and!; [done| |done..].
    etrans; [exact Hs0|]. by apply sublist_skip, sublist_nil_l. }
  rewrite Ht0.
  destruct (for_entries rec base rest _) as [r1|] eqn:Hr1; [|done].
  destruct (IH _ _ Hr1) as (names1 & new1 & Ht1 & Hs1 & Hn1 & Ho1).
  intros [= <-]. exists (names0 ++ names1), (new0 ++ new1). simpl.
  split_and!.
  - by rewrite Ht1, (assoc_L (++)).
  - change (entry :: rest) with ([entry] ++ rest). by apply sublist_app.
  - by apply Forall2_app.
  - by apply Forall_app.
Qed.

Lemma build_tree_ordered fuel base l r :
  build_tree fuel base (Some (Node l [])) = Some r →
  label (tree_of r) = l ∧ listing_ordered (tree_of r).
Proof.
  revert base l r. induction fuel as [|fuel IH]; intros base l r; [done|].
  rewrite build_tree_unfold. unfold try_block. simpl default.
  assert (∀ tail, (tail = [] ∨ ∃ p, tail = [Node (perm_label p) []]) →
            listing_ordered (Node l ([] ++ tail))) as Hleaf.
  { intros tail Htail.
    apply (listing_ordered_node _ [] []); by eauto using SSorted_nil. }
  destruct (listdir fs base) as [names|e].
  - destruct (for_entries _ _ _ _) as [r0|] eqn:Hr0; [|done].
    apply for_entries_ordered in Hr0
      as (names' & kids & Ht & Hsub & Hnodes & Hkids); [|exact IH].
    simpl in Ht. intros [= <-].
    assert (StronglySorted String.le names') as Hsorted.
    { eapply StronglySorted_sublist; [done|apply sorted_StronglySorted]. }
    unfold handle; simpl. destruct (raised r0) as [[]|]; simpl; rewrite Ht;
      simpl; (split; [done|]).
    1: by apply (listing_ordered_node _ names'); eauto.
    all: rewrite <-(app_nil_r kids);
      by apply (listing_ordered_node _ names'); eauto.
  - intros [= <-]. unfold handle; simpl.
    destruct e; simpl; (split; [done|]).
    1: apply (Hleaf [_]); eauto.
    all: apply (Hleaf []); eauto.
Qed.
End order.

Section storage_order.
Context (fs fs' : filesystem) (exclude_dirs exclude_files : gset string).
Hypothesis Hsame : same_up_to_order fs fs'.

Lemma visit_entry_order rec rec' base entry tree :
  (∀ p t, rec p t = rec' p t) →
  visit_entry fs exclude_dirs exclude_files rec base entry tree =
  visit_entry fs' exclude_dirs exclude_files rec' base entry tree.
Proof.
  intros Hrec. unfold visit_entry.
  destruct (Hsame (join base entry)) as (_ & <- & <-).
  by rewrite Hrec.
Qed.

Lemma for_entries_order rec rec' base entries tree :
  (∀ p t, rec p t = rec' p t) →
  for_entries fs exclude_dirs exclude_files rec base entries tree =
  for_entries fs' exclude_dirs exclude_files rec' base entries tree.
Proof.
  intros Hrec. revert tree.
  induction entries as [|entry rest IH]; intros tree; [done|].
  rewrite !for_entries_cons, (visit_entry_order _ rec') by done.
  destruct (visit_entry fs' _ _ _ _ _ _) as [r|]; [|done].
  destruct (raised r); [done|]. by rewrite IH.
Qed.

Lemma build_tree_order fuel base tree :
  build_tree fs exclude_dirs exclude_files fuel base tree =
  build_tree fs' exclude_dirs exclude_files fuel base tree.
Proof.
  revert base tree. induction fuel as [|fuel IH]; intros base tree; [done|].
  rewrite !build_tree_unfold. f_equal. unfold try_block.
  destruct (Hsame base) as (Hlist & _ & _).
  destruct (listdir fs base) as [names|e], (listdir fs' base) as [names'|e'];
    simpl in Hlist; [|done..|by subst].
  rewrite (sorted_Permutation _ _ Hlist).
  by rewrite (for_entries_order _ (λ p t, build_tree fs' exclude_dirs
                exclude_files fuel p (Some t))).
Qed.
End storage_order.

(** C3.  In the tree that [build_tree] returns, at every level the children
    are the nodes of an ascending sequence of raw entry names (a
    permission-denied leaf, which is no entry, comes last), and a storage
    that enumerates the same entries in another order gives the same run. *)
Theorem children_sorted_by_name fs fs' exclude_dirs exclude_files fuel base r :
  same_up_to_order fs fs' →
  build_tree fs exclude_dirs exclude_files fuel base None = Some r →
  listing_ordered (tree_of r) ∧
  build_tree fs' exclude_dirs exclude_files fuel base None = Some r.
Proof.
  intros Hsame Hr. split.
  - destruct fuel as [|fuel]; [done|].
    eapply (build_tree_ordered fs exclude_dirs exclude_files (S fuel) base).
    rewrite build_tree_unfold in Hr |- *. exact Hr.
  - by rewrite <-(build_tree_order fs fs').
Qed.

Lemma same_listing_refl a : same_listing a a.
Proof. destruct a; simpl; reflexivity. Qed.

Lemma reordered_same : same_up_to_order project_fs reordered_fs.
Proof.
  intros p. split; [|split; reflexivity].
  destruct (decide (p = "/proj")) as [->|Hp].
  - change (["src"; "readme.md"; ".venv"] ≡ₚ [".venv"; "src"; "readme.md"]).
    by rewrite (Permutation_app_comm ["src"; "readme.md"] [".venv"]).
  - cbn [listdir reordered_fs]. rewrite bool_decide_eq_false_2 by done.
    apply same_listing_refl.
Qed.

(** The scenario of the specification, enumerated in another order. *)
Lemma children_sorted_by_name_witness :
  ∃ r, build_tree reordered_fs {[ ".venv" ]} ∅ 3 "/proj" None = Some r ∧
       listing_ordered (tree_of r) ∧
       children (tree_of r) =
         [Node (file_label "readme.md") [];
          Node (dir_label "src") [Node (file_label "a.py") []]].
Proof.
  eexists.
  pose proof (children_sorted_by_name project_fs reordered_fs {[ ".venv" ]} ∅
                3 "/proj" _ reordered_same eq_refl) as [Hsorted Hsame].
  split; [exact Hsame|]. split; [exact Hsorted|reflexivity].
Defined.

(** ** Determinism *)




(** ** Termination *)

Section termination.
Context (fs : filesystem) (exclude_dirs exclude_files : gset string).

Local Abbreviation visit_entry := (visit_entry fs exclude_dirs exclude_files).
Local Abbreviation for_entries := (for_entries fs exclude_dirs exclude_files).
Local Abbreviation try_block := (try_block fs exclude_dirs exclude_files).
Local Abbreviation build_tree := (build_tree fs exclude_dirs exclude_files).



End termination.




(** ** Strings, paths and labels *)

Lemma str_app_nil_l s : EmptyString +:+ s = s.
Proof. done. Qed.

Lemma str_app_cons c a b : String c a +:+ b = String c (a +:+ b).
Proof. done. Qed.

Lemma str_app_assoc a b c : (a +:+ b) +:+ c = a +:+ (b +:+ c).
Proof.
  induction a as [|x a IH]; [done|]. by rewrite !str_app_cons, IH.
Qed.

Lemma str_length_app a b :
  String.length (a +:+ b) = String.length a + String.length b.
Proof.
  induction a as [|x a IH]; [done|]. rewrite str_app_cons. simpl. by rewrite IH.
Qed.

Lemma str_app_inj_r a b c : a +:+ c = b +:+ c → a = b.
Proof.
  revert b. induction a as [|x a IH]; intros [|y b] Heq; [done|..].
  - apply (f_equal String.length) in Heq.
    rewrite str_app_cons, str_app_nil_l in Heq. simpl in Heq.
    rewrite str_length_app in Heq. lia.
  - apply (f_equal String.length) in Heq.
    rewrite str_app_cons, str_app_nil_l in Heq. simpl in Heq.
    rewrite str_length_app in Heq. lia.
  - rewrite !str_app_cons in Heq. injection Heq as -> Heq.
    f_equal. by apply IH.
Qed.

Lemma slash_free_split e e' rest rest' :
  slash_free e = true → slash_free e' = true →
  e +:+ "/" +:+ rest = e' +:+ "/" +:+ rest' → e = e'.
Proof.
  revert e'. induction e as [|c e IH]; intros [|c' e'] He He' Heq; [done|..].
  - rewrite str_app_nil_l, !str_app_cons in Heq. injection Heq as <- _.
    by cbn in He'.
  - rewrite str_app_nil_l, !str_app_cons in Heq. injection Heq as -> _.
    by cbn in He.
  - rewrite !str_app_cons in Heq. injection Heq as -> Heq.
    simpl in He, He'. apply andb_true_iff in He as [_ He].
    apply andb_true_iff in He' as [_ He']. f_equal. by eapply IH.
Qed.

Lemma slash_free_no_slash e e' rest :
  slash_free e = true → e ≠ e' +:+ "/" +:+ rest.
Proof.
  revert e. induction e' as [|c' e' IH]; intros e He ->.
  - by rewrite str_app_nil_l, str_app_cons, str_app_nil_l in He.
  - rewrite str_app_cons in He. simpl in He.
    apply andb_true_iff in He as [_ He]. by eapply IH.
Qed.

Lemma startswith_sep_valid e : valid_name e → startswith_sep e = false.
Proof.
  intros [_ He]. destruct e as [|c e]; [done|]. simpl in *.
  apply andb_true_iff in He as [Hc _]. by apply negb_true_iff in Hc.
Qed.

Lemma join_valid base e : valid_name e → join base e = join_prefix base +:+ e.
Proof.
  intros He. unfold join, join_prefix.
  rewrite (startswith_sep_valid e He).
  destruct (is_empty base || endswith_sep base); [done|].
  by rewrite str_app_assoc.
Qed.

Lemma endswith_sep_app a e :
  e ≠ EmptyString → endswith_sep (a +:+ e) = endswith_sep e.
Proof.
  intros He. induction a as [|c a IH]; [done|].
  rewrite str_app_cons. simpl. rewrite IH.
  destruct (a +:+ e) eqn:Hae; [|done].
  destruct a; [by rewrite str_app_nil_l in Hae|done].
Qed.

Lemma endswith_sep_valid e : valid_name e → endswith_sep e = false.
Proof.
  intros [_ He]. induction e as [|c e IH]; [done|].
  simpl in *. apply andb_true_iff in He as [Hc He].
  destruct e; [by apply negb_true_iff in Hc|auto].
Qed.

Lemma join_inj base e e' :
  valid_name e → valid_name e' → join base e = join base e' → e = e'.
Proof.
  intros He He'. rewrite !join_valid by done. apply (inj _).
Qed.

Lemma join_not_under base e e' :
  valid_name e → valid_name e' → ¬ under (join base e) (join base e').
Proof.
  intros He He' [rest Hrest]. rewrite !join_valid in Hrest by done.
  rewrite str_app_assoc in Hrest. apply (inj _) in Hrest.
  by eapply slash_free_no_slash; [apply He'|].
Qed.

Lemma under_under_same base e e' p :
  valid_name e → valid_name e' →
  under (join base e) p → under (join base e') p → e = e'.
Proof.
  intros He He' [rest ->] [rest' Hrest].
  rewrite !join_valid, !str_app_assoc in Hrest by done.
  apply (inj _) in Hrest.
  symmetry. by eapply slash_free_split; [apply He'|apply He|].
Qed.

Lemma join_longer base e : valid_name e →
  String.length base < String.length (join base e).
Proof.
  intros He. rewrite join_valid, str_length_app by done.
  assert (0 < String.length e).
  { destruct He as [He _]. destruct e; [done|simpl; lia]. }
  unfold join_prefix. destruct (_ || _); [lia|].
  rewrite str_length_app. lia.
Qed.

Lemma base_not_under base e : valid_name e → ¬ under (join base e) base.
Proof.
  intros He [rest Hrest]. apply (f_equal String.length) in Hrest.
  rewrite !str_length_app in Hrest.
  pose proof (join_longer base e He). lia.
Qed.

Lemma under_trans d rest p : under (d +:+ "/" +:+ rest) p → under d p.
Proof.
  intros [rest' ->]. exists (rest +:+ "/" +:+ rest').
  by rewrite !str_app_assoc.
Qed.

Lemma under_longer d p : under d p → String.length d < String.length p.
Proof. intros [rest ->]. rewrite !str_length_app. simpl. lia. Qed.

Lemma at_or_under_under a b c : at_or_under a b → under b c → under a c.
Proof. intros [->|[rest ->]] Hc; [done|]. by eapply under_trans. Qed.

(** Two entries of one directory have nothing in common below them. *)
Lemma same_branch base e e' x :
  valid_name e → valid_name e' →
  at_or_under (join base e) x → at_or_under (join base e') x → e = e'.
Proof.
  intros He He' [->|Hx] [Hx'|Hx'].
  - by apply join_inj in Hx'.
  - by apply join_not_under in Hx'.
  - subst x. symmetry. by apply join_not_under in Hx.
  - by eapply under_under_same.
Qed.

Lemma dir_label_inj e e' : dir_label e = dir_label e' → e = e'.
Proof.
  unfold dir_label. intros Heq%(inj _). by apply str_app_inj_r in Heq.
Qed.

Lemma file_label_inj e e' : file_label e = file_label e' → e = e'.
Proof. unfold file_label. apply (inj _). Qed.

Lemma dir_label_not_file e e' : dir_label e ≠ file_label e'.
Proof. unfold dir_label, file_label. by rewrite !str_app_cons. Qed.

Lemma perm_label_not_dir p e : perm_label p ≠ dir_label e.
Proof. unfold dir_label, perm_label. by rewrite !str_app_cons. Qed.

Lemma perm_label_not_file p e : perm_label p ≠ file_label e.
Proof.
  unfold file_label, perm_label. rewrite !str_app_cons. by intros [=].
Qed.

(** A child is the node of at most one entry name, so the names that
    [listing_ordered] speaks of are determined by the tree. *)
Lemma entry_node_label e c :
  entry_node e c → label c = dir_label e ∨ label c = file_label e.
Proof. intros [sub|]; [by left|by right]. Qed.

Lemma entry_node_inj e e' c : entry_node e c → entry_node e' c → e = e'.
Proof.
  intros [H1|H1]%entry_node_label [H2|H2]%entry_node_label; rewrite H1 in H2.
  - by apply dir_label_inj.
  - by apply dir_label_not_file in H2.
  - symmetry in H2. by apply dir_label_not_file in H2.
  - by apply file_label_inj.
Qed.

Lemma proper_join_valid base e : valid_name e → proper (join base e).
Proof.
  intros He. rewrite join_valid by done. split.
  - destruct He as [He _]. destruct (join_prefix base); [|done].
    by destruct e.
  - rewrite endswith_sep_app by apply He. by apply endswith_sep_valid.
Qed.

Lemma join_proper p e :
  proper p → valid_name e → join p e = p +:+ "/" +:+ e.
Proof.
  intros [Hp1 Hp2] He. unfold join.
  by rewrite (startswith_sep_valid e He), Hp1, Hp2.
Qed.

(** ** Where children and calls come from *)

Section origin.
Context (fs : filesystem) (exclude_dirs exclude_files : gset string).

Local Abbreviation visit_entry := (visit_entry fs exclude_dirs exclude_files).
Local Abbreviation for_entries := (for_entries fs exclude_dirs exclude_files).
Local Abbreviation try_block := (try_block fs exclude_dirs exclude_files).
Local Abbreviation build_tree := (build_tree fs exclude_dirs exclude_files).
Local Abbreviation from_entry := (from_entry fs exclude_dirs exclude_files).
Local Abbreviation for_entry := (for_entry fs exclude_dirs exclude_files).

Lemma from_entry_weaken base entries entries' c :
  entries ⊆ entries' → from_entry base entries c → from_entry base entries' c.
Proof. intros Hsub (e & He & H). exists e. split; [by apply Hsub|done]. Qed.

Lemma for_entry_weaken fuel base entries entries' c :
  entries ⊆ entries' →
  for_entry fuel base entries c → for_entry fuel base entries' c.
Proof. intros Hsub (e & He & H). exists e. split; [by apply Hsub|done]. Qed.

Lemma visit_entry_origin rec base entry l kids0 r :
  keeps_order rec →
  visit_entry rec base entry (Node l kids0) = Some r →
  ∃ kids, tree_of r = Node l (kids0 ++ kids) ∧
          Forall (from_entry base [entry]) kids.
Proof.
  intros Hrec. unfold visit_entry.
  destruct (isdir fs _) as [d|e] eqn:Hdir.
  2:{ intros [= <-]. exists []. rewrite app_nil_r. by split. }
  destruct (d && _) eqn:Hd.
  - destruct (rec _ _) as [rs|] eqn:Hrs; [|done].
    destruct (Hrec _ _ _ Hrs) as [Hl _].
    apply andb_true_iff in Hd as [-> Hex%negb_true_iff].
    apply bool_decide_eq_false in Hex.
    intros [= <-]. exists [tree_of rs]. split; [done|].
    constructor; [|done]. exists entry. split; [by left|]. by left.
  - destruct (isfile fs _) as [f|e] eqn:Hfile.
    2:{ intros [= <-]. exists []. rewrite app_nil_r. by split. }
    destruct (f && _) eqn:Hf; intros [= <-].
    + apply andb_true_iff in Hf as [-> Hex%negb_true_iff].
      apply bool_decide_eq_false in Hex.
      exists [Node (file_label entry) []]. split; [done|].
      constructor; [|done]. exists entry. split; [by left|]. by right.
    + exists []. rewrite app_nil_r. by split.
Qed.

Lemma for_entries_origin rec base entries l kids0 r :
  keeps_order rec →
  for_entries rec base entries (Node l kids0) = Some r →
  ∃ kids, tree_of r = Node l (kids0 ++ kids) ∧
          Forall (from_entry base entries) kids.
Proof.
  intros Hrec. revert kids0 r.
  induction entries as [|entry rest IH]; intros kids0 r.
  { intros [= <-]. exists []. rewrite app_nil_r. by split. }
  rewrite for_entries_cons.
  destruct (visit_entry rec base entry (Node l kids0)) as [r0|] eqn:Hv;
    [|done].
  apply visit_entry_origin in Hv as (new0 & Ht0 & Hn0); [|done].
  assert (Forall (from_entry base (entry :: rest)) new0) as Hn0'.
  { eapply Forall_impl; [exact Hn0|]. intros c.
    apply from_entry_weaken. intros x ->%list_elem_of_singleton. by left. }
  destruct (raised r0); [intros [= <-]; eauto|].
  rewrite Ht0.
  destruct (for_entries rec base rest _) as [r1|] eqn:Hr1; [|done].
  destruct (IH _ _ Hr1) as (new1 & Ht1 & Hn1).
  intros [= <-]. exists (new0 ++ new1). simpl. split.
  - by rewrite Ht1, (assoc_L (++)).
  - apply Forall_app. split; [done|].
    eapply Forall_impl; [exact Hn1|]. intros c.
    apply from_entry_weaken. intros x Hx. by right.
Qed.

(** The children that a call adds: nodes of accepted entries of the
    listing, then at most the permission-denied leaf of this directory. *)
Lemma build_tree_origin fuel base tree r :
  build_tree fuel base tree = Some r →
  ∃ kids tail,
    tree_of r =
      Node (label (default (Node (root_label base) []) tree))
           (children (default (Node (root_label base) []) tree)
              ++ kids ++ tail) ∧
    (tail = [] ∨ tail = [Node (perm_label base) []]) ∧
    (∀ c, c ∈ kids → ∃ names,
       listdir fs base = Ok names ∧ from_entry base names c).
Proof.
  destruct fuel as [|fuel]; [done|]. rewrite build_tree_unfold.
  destruct (default _ tree) as [l kids0]. unfold try_block. simpl.
  destruct (listdir fs base) as [names|e] eqn:Hlist.
  - destruct (for_entries _ _ _ _) as [r0|] eqn:Hr0; [|done].
    apply for_entries_origin in Hr0 as (kids & Ht & Hkids).
    2:{ intros p l' r'. apply build_tree_ordered. }
    simpl in Ht.
    assert (∀ c, c ∈ kids → ∃ names0,
              Ok names = Ok names0 ∧ from_entry base names0 c) as Hfrom.
    { intros c Hc. exists names. split; [done|].
      rewrite Forall_forall in Hkids.
      eapply from_entry_weaken; [|by apply Hkids].
      intros x Hx. unfold sorted in Hx.
      by rewrite merge_sort_Permutation in Hx. }
    intros [= <-]. unfold handle; simpl.
    destruct (raised r0) as [[]|]; simpl; rewrite Ht; simpl.
    1: exists kids, [Node (perm_label base) []];
         rewrite (assoc_L (++)); by auto.
    all: exists kids, []; rewrite app_nil_r; by auto.
  - intros [= <-]. unfold handle; simpl.
    assert (∀ c : Tree, c ∈ [] → ∃ names0 : list string,
              @Raise (list string) e = Ok names0 ∧ from_entry base names0 c)
      as Hnone by (by intros c ?%elem_of_nil).
    destruct e; simpl.
    1: exists [], [Node (perm_label base) []]; by auto.
    all: exists [], []; rewrite app_nil_r; by auto.
Qed.

Hypothesis Hvalid : names_valid fs.

Lemma listed_valid p names e :
  listdir fs p = Ok names → e ∈ names → valid_name e.
Proof.
  intros Hlist He. specialize (Hvalid _ _ Hlist).
  rewrite Forall_forall in Hvalid. auto.
Qed.

(** Every call of a traversal is on its directory or below it, on a path
    that [join] built. *)
Lemma build_tree_calls_below fuel p tree r :
  proper p →
  build_tree fuel p tree = Some r →
  ∀ c, c ∈ calls r → at_or_under p (path_of c) ∧ proper (path_of c).
Proof.
  revert p tree r. induction fuel as [|fuel IH]; intros p tree r Hp; [done|].
  rewrite build_tree_unfold.
  set (rec := λ q t, build_tree fuel q (Some t)).
  assert (∀ entries t r', Forall valid_name entries →
            for_entries rec p entries t = Some r' →
            ∀ c, c ∈ calls r' → under p (path_of c) ∧ proper (path_of c))
    as Hfor.
  { induction entries as [|entry rest IHrest]; intros t r' Hnames.
    { intros [= <-] c. by intros ?%elem_of_nil. }
    apply Forall_cons in Hnames as [Hentry Hrest].
    assert (under p (join p entry) ∧ proper (join p entry)) as Hjoined.
    { split; [|by apply proper_join_valid].
      exists entry. by apply join_proper. }
    rewrite for_entries_cons.
    destruct (visit_entry rec p entry t) as [r0|] eqn:Hv; [|done].
    assert (∀ c, c ∈ calls r0 → under p (path_of c) ∧ proper (path_of c))
      as Hr0.
    { revert Hv. unfold visit_entry.
      destruct (isdir fs _) as [d|e].
      2:{ intros [= <-] c ->%list_elem_of_singleton. done. }
      destruct (d && _).
      - destruct (rec _ _) as [rs|] eqn:Hrs; [|done].
        intros [= <-] c [->|Hc]%elem_of_cons; [done|].
        destruct (IH (join p entry) _ _ (proper_join_valid _ _ Hentry)
                    Hrs c Hc) as [[->|Hc'] Hproper]; [done|].
        split; [|done].
        rewrite join_proper in Hc' by done. by eapply under_trans.
      - assert (∀ c, c ∈ [Isdir (join p entry); Isfile (join p entry)] →
                  under p (path_of c) ∧ proper (path_of c)) as Htwo.
        { by intros c [-> | ->%list_elem_of_singleton]%elem_of_cons. }
        destruct (isfile fs _) as [f|e]; [|by intros [= <-]].
        destruct (f && _); by intros [= <-]. }
    destruct (raised r0); [by intros [= <-]|].
    destruct (for_entries rec p rest _) as [r1|] eqn:Hr1; [|done].
    intros [= <-] c [Hc|Hc]%elem_of_app; [by auto|].
    by eapply IHrest. }
  unfold try_block. destruct (listdir fs p) as [names|e] eqn:Hlist.
  - destruct (for_entries _ _ _ _) as [r0|] eqn:Hr0; [|done].
    intros [= <-] c Hc.
    assert (c ∈ Listdir p :: calls r0) as [->|Hc']%elem_of_cons.
    { unfold handle in Hc. by destruct (raised r0) as [[]|]. }
    + split; [by left|done].
    + assert (Forall valid_name (sorted names)) as Hnames.
      { unfold sorted. rewrite merge_sort_Permutation. by eapply Hvalid. }
      destruct (Hfor _ _ _ Hnames Hr0 c Hc') as [Hunder Hproper].
      split; [by right|done].
  - intros [= <-] c Hc.
    assert (c ∈ [Listdir p]) as ->%list_elem_of_singleton.
    { unfold handle in Hc; simpl in Hc. by destruct e. }
    split; [by left|done].
Qed.

Lemma for_entries_calls fuel base entries tree r :
  for_entries (λ q t, build_tree fuel q (Some t)) base entries tree
    = Some r →
  ∀ c, c ∈ calls r → for_entry fuel base entries c.
Proof.
  revert tree r. induction entries as [|entry rest IH]; intros tree r.
  { intros [= <-] c. by intros ?%elem_of_nil. }
  rewrite for_entries_cons.
  destruct (visit_entry _ base entry tree) as [r0|] eqn:Hv; [|done].
  assert (∀ c, c ∈ calls r0 → for_entry fuel base (entry :: rest) c) as Hr0.
  { assert (entry ∈ entry :: rest) as Hin by by left.
    revert Hv. unfold visit_entry.
    destruct (isdir fs _) as [d|e] eqn:Hdir.
    2:{ intros [= <-] c ->%list_elem_of_singleton. exists entry. auto. }
    destruct (d && _) eqn:Hd.
    - destruct (build_tree _ _ _) as [rs|] eqn:Hrs; [|done].
      apply andb_true_iff in Hd as [-> Hex%negb_true_iff].
      apply bool_decide_eq_false in Hex.
      intros [= <-] c [->|Hc]%elem_of_cons; exists entry; [by auto|].
      split; [done|]. right; right. split_and!; [done..|]. by exists rs.
    - assert (∀ c, c ∈ [Isdir (join base entry); Isfile (join base entry)] →
                for_entry fuel base (entry :: rest) c) as Htwo.
      { intros c [-> | ->%list_elem_of_singleton]%elem_of_cons;
          exists entry; auto. }
      destruct (isfile fs _) as [f|e]; [|by intros [= <-]].
      destruct (f && _); by intros [= <-]. }
  destruct (raised r0); [by intros [= <-]|].
  destruct (for_entries _ base rest _) as [r1|] eqn:Hr1; [|done].
  intros [= <-] c [Hc|Hc]%elem_of_app; [by auto|].
  eapply for_entry_weaken; [|by eapply IH]. intros x Hx. by right.
Qed.

(** The calls of one frame: the listing of its directory, and the calls
    that belong to the entries of that listing. *)
Lemma build_tree_calls fuel base tree r :
  build_tree (S fuel) base tree = Some r →
  ∀ c, c ∈ calls r →
    c = Listdir base ∨
    ∃ names, listdir fs base = Ok names ∧ for_entry fuel base names c.
Proof.
  rewrite build_tree_unfold.
  unfold try_block. destruct (listdir fs base) as [names|e] eqn:Hlist.
  - destruct (for_entries _ _ _ _) as [r0|] eqn:Hr0; [|done].
    intros [= <-] c Hc.
    assert (c ∈ Listdir base :: calls r0) as [->|Hc']%elem_of_cons.
    { unfold handle in Hc. by destruct (raised r0) as [[]|]. }
    + by left.
    + right. exists names. split; [done|].
      eapply for_entry_weaken; [|by eapply for_entries_calls].
      intros x Hx. unfold sorted in Hx.
      by rewrite merge_sort_Permutation in Hx.
  - intros [= <-] c Hc.
    assert (c ∈ [Listdir base]) as ->%list_elem_of_singleton.
    { unfold handle in Hc; simpl in Hc. by destruct e. }
    by left.
Qed.

(** An entry that the loop body of a frame does not descend into is not
    listed by that frame, and nothing below it is looked at. *)
Lemma calls_avoid fuel base tree r names entry :
  build_tree fuel base tree = Some r →
  listdir fs base = Ok names →
  entry ∈ names →
  ¬ (isdir fs (join base entry) = Ok true ∧ entry ∉ exclude_dirs) →
  ∀ c, c ∈ calls r →
    c ≠ Listdir (join base entry) ∧ ¬ under (join base entry) (path_of c).
Proof.
  intros Hr Hlist Hentry Hskip c Hc.
  pose proof (listed_valid _ _ _ Hlist Hentry) as Hv.
  destruct fuel as [|fuel]; [done|].
  destruct (build_tree_calls _ _ _ _ Hr c Hc)
    as [->|(names' & Hlist' & e & He & Hcases)].
  { split; [|by apply base_not_under].
    intros [= Heq]. pose proof (join_longer base entry Hv) as Hlen.
    rewrite <-Heq in Hlen. lia. }
  assert (names' = names) as -> by congruence.
  pose proof (listed_valid _ _ _ Hlist He) as Hve.
  destruct Hcases as [->|[->|(Hd & Hex & rs & Hrs & Hcrs)]].
  - split; [done|]. by apply join_not_under.
  - split; [done|]. by apply join_not_under.
  - assert (e ≠ entry) as Hne by (intros ->; by apply Hskip).
    destruct (build_tree_calls_below _ _ _ _ (proper_join_valid base e Hve)
                Hrs c Hcrs) as [Hat _].
    split.
    + intros ->. by apply Hne, (same_branch base e entry (join base entry));
        [..|left].
    + intros Hunder.
      by apply Hne, (same_branch base e entry (path_of c)); [..|right].
Qed.

(** The same in the whole traversal: wherever the directory [d] is listed,
    an entry of [d] that the loop body does not descend into is listed by
    no frame, and no frame looks at anything below it. *)
Lemma calls_avoid_everywhere fuel root tree r d names entry :
  build_tree fuel root tree = Some r →
  Listdir d ∈ calls r →
  listdir fs d = Ok names →
  entry ∈ names →
  ¬ (isdir fs (join d entry) = Ok true ∧ entry ∉ exclude_dirs) →
  ∀ c, c ∈ calls r →
    c ≠ Listdir (join d entry) ∧ ¬ under (join d entry) (path_of c).
Proof.
  intros Hr Hd Hlist Hentry Hskip.
  pose proof (listed_valid _ _ _ Hlist Hentry) as Hv.
  revert root tree r Hr Hd.
  induction fuel as [|fuel IH]; intros root tree r Hr Hd c Hc; [done|].
  destruct (build_tree_calls _ _ _ _ Hr _ Hd)
    as [[= ->]|(names0 & Hlist0 & e & He & Hcase)].
  { by eapply calls_avoid. }
  destruct Hcase as [[=]|[[=]|(Hdir & Hex & rs & Hrs & Hdrs)]].
  pose proof (listed_valid _ _ _ Hlist0 He) as Hve.
  destruct (build_tree_calls_below _ _ _ _ (proper_join_valid root e Hve)
              Hrs _ Hdrs) as [Hdq Hdproper].
  simpl in Hdq, Hdproper.
  assert (under d (join d entry)) as Hfd.
  { exists entry. by apply join_proper. }
  assert (under (join root e) (join d entry)) as Hfq
    by by eapply at_or_under_under.
  destruct (build_tree_calls _ _ _ _ Hr c Hc)
    as [->|(names1 & Hlist1 & e' & He' & Hcase')].
  { pose proof (join_longer root e Hve) as Hlen.
    apply under_longer in Hfq. split.
    - intros [= Heq]. rewrite <-Heq in Hfq. lia.
    - intros Hu%under_longer. simpl in Hu. lia. }
  assert (names1 = names0) as -> by congruence.
  pose proof (listed_valid _ _ _ Hlist0 He') as Hve'.
  assert (∀ x, at_or_under (join root e') x →
            x = join d entry ∨ under (join d entry) x → e' = e) as Hbranch.
  { intros x Hx Hfx. apply (same_branch root e' e x); [done..|].
    right. destruct Hfx as [->|Hfx]; [done|].
    eapply at_or_under_under; [by right|done]. }
  destruct Hcase' as [->|[->|(Hdir' & Hex' & rs' & Hrs' & Hcrs')]].
  - split; [done|]. intros Hu.
    apply (join_not_under root e e'); [done..|].
    eapply at_or_under_under; [by right|done].
  - split; [done|]. intros Hu.
    apply (join_not_under root e e'); [done..|].
    eapply at_or_under_under; [by right|done].
  - destruct (decide (e' = e)) as [->|Hne].
    { assert (rs' = rs) as -> by congruence. by eapply IH. }
    destruct (build_tree_calls_below _ _ _ _ (proper_join_valid root e' Hve')
                Hrs' c Hcrs') as [Hat _].
    split.
    + intros ->. apply Hne, (Hbranch _ Hat). by left.
    + intros Hu. apply Hne, (Hbranch _ Hat). by right.
Qed.
End origin.

(** ** Entries that are skipped and entries that are accepted *)

Section entries.
Context (fs : filesystem) (exclude_dirs exclude_files : gset string).

Local Abbreviation visit_entry := (visit_entry fs exclude_dirs exclude_files).
Local Abbreviation for_entries := (for_entries fs exclude_dirs exclude_files).
Local Abbreviation try_block := (try_block fs exclude_dirs exclude_files).
Local Abbreviation build_tree := (build_tree fs exclude_dirs exclude_files).
Local Abbreviation accepted := (accepted fs exclude_dirs exclude_files).

(** An entry that the loop body accepts neither as a directory nor as a
    file gets no node. *)
Lemma children_avoid fuel base tree r entry :
  build_tree fuel base tree = Some r →
  ¬ (isdir fs (join base entry) = Ok true ∧ entry ∉ exclude_dirs) →
  ¬ (isfile fs (join base entry) = Ok true ∧ entry ∉ exclude_files) →
  ∃ added,
    children (tree_of r) =
      children (default (Node (root_label base) []) tree) ++ added ∧
    ∀ c, c ∈ added →
      label c ≠ dir_label entry ∧ label c ≠ file_label entry.
Proof.
  intros Hr Hnodir Hnofile.
  apply build_tree_origin in Hr as (kids & tail & Ht & Htail & Hkids).
  exists (kids ++ tail). split; [by rewrite Ht|].
  intros c [Hc|Hc]%elem_of_app.
  - destruct (Hkids c Hc) as (names & _ & e & _ & [(Hl & Hd & He)|(-> & Hf & He)]).
    + rewrite Hl. split; [|apply dir_label_not_file].
      intros ->%dir_label_inj. by apply Hnodir.
    + simpl. split; [apply not_eq_sym, dir_label_not_file|].
      intros ->%file_label_inj. by apply Hnofile.
  - destruct Htail as [->| ->]; [by apply elem_of_nil in Hc|].
    apply list_elem_of_singleton in Hc as ->. simpl.
    split; [apply perm_label_not_dir|apply perm_label_not_file].
Qed.

(** C1.  Let [base] be any directory that a traversal lists, and [entry] an
    entry of its listing that is a directory and whose name is in
    [exclude_dirs].  The call of [build_tree] on [base] adds no node for
    [entry]; and nowhere in the traversal is [entry] listed or any call made
    on a path below it. *)
Theorem excluded_directory_is_pruned fuel root tree r base names entry :
  names_valid fs →
  build_tree fuel root tree = Some r →
  Listdir base ∈ calls r →
  listdir fs base = Ok names →
  entry ∈ names →
  entry ∈ exclude_dirs →
  is_directory fs (join base entry) →
  (∀ fuel' tree' r',
     build_tree fuel' base tree' = Some r' →
     ∃ added,
       children (tree_of r') =
         children (default (Node (root_label base) []) tree') ++ added ∧
       ∀ c, c ∈ added →
         label c ≠ dir_label entry ∧ label c ≠ file_label entry) ∧
  (∀ c, c ∈ calls r →
     c ≠ Listdir (join base entry) ∧ ¬ under (join base entry) (path_of c)).
Proof.
  intros Hvalid Hr Hbase Hlist Hentry Hex [Hdir Hfile]. split.
  - intros fuel' tree' r' Hr'. eapply children_avoid; [done|..].
    + by intros [_ ?].
    + intros [Hf _]. congruence.
  - eapply calls_avoid_everywhere; [done..|]. by intros [_ ?].
Qed.

Lemma build_tree_lists_first fuel base tree r :
  build_tree fuel base tree = Some r → Listdir base ∈ calls r.
Proof.
  destruct fuel as [|fuel]; [done|]. rewrite build_tree_unfold.
  unfold try_block. destruct (listdir fs base) as [names|e].
  - destruct (for_entries _ _ _ _) as [r0|]; [|done].
    intros [= <-]. unfold handle; simpl.
    destruct (raised r0) as [[]|]; by left.
  - intros [= <-]. unfold handle; simpl. destruct e; by left.
Qed.

Lemma visit_entry_accepts fuel base entry tree r :
  visit_entry (λ p t, build_tree fuel p (Some t)) base entry tree = Some r →
  accepted base entry r.
Proof.
  unfold visit_entry. intros Hv. split.
  - intros Hdir Hex. rewrite Hdir, bool_decide_eq_false_2 in Hv by done.
    simpl in Hv.
    destruct (build_tree _ _ _) as [rs|] eqn:Hrs; [|done].
    injection Hv as <-. simpl. split.
    + destruct (build_tree_ordered _ _ _ _ _ _ _ Hrs) as [Hl _].
      destruct (tree_of rs) as [l sub]. simpl in Hl. subst l.
      exists sub. apply elem_of_app. right. by left.
    + right. by eapply build_tree_lists_first.
  - intros Hdir Hfile Hex. rewrite Hdir, Hfile in Hv. simpl in Hv.
    rewrite bool_decide_eq_false_2 in Hv by done.
    injection Hv as <-. simpl. apply elem_of_app. right. by left.
Qed.

Lemma accepted_later base entry r r' :
  children (tree_of r) ⊆ children (tree_of r') →
  calls r ⊆ calls r' →
  accepted base entry r → accepted base entry r'.
Proof.
  intros Hkids Hcalls [Hd Hf]. split.
  - intros Hdir Hex. destruct (Hd Hdir Hex) as [[sub Hsub] Hl].
    split; [exists sub|]; auto.
  - intros Hdir Hfile Hex. auto.
Qed.

Lemma for_entries_complete fuel base entries tree r :
  for_entries (λ p t, build_tree fuel p (Some t)) base entries tree
    = Some r →
  raised r = None →
  ∀ e, e ∈ entries → accepted base e r.
Proof.
  revert tree r. induction entries as [|entry rest IH]; intros tree r.
  { intros _ _ e. by intros ?%elem_of_nil. }
  rewrite for_entries_cons.
  destruct (visit_entry _ base entry tree) as [r0|] eqn:Hv; [|done].
  destruct (raised r0) eqn:Hr0; [by intros [= <-]; congruence|].
  destruct (for_entries _ base rest _) as [r1|] eqn:Hr1; [|done].
  intros [= <-] Hraised e He. simpl in Hraised.
  apply elem_of_cons in He as [->|He].
  - apply visit_entry_accepts in Hv.
    eapply accepted_later; [| |exact Hv]; simpl.
    + destruct (tree_of r0) as [l kids0] eqn:Ht0.
      apply for_entries_origin in Hr1 as (new1 & -> & _).
      2:{ intros p l' r'. apply build_tree_ordered. }
      simpl. intros x Hx. apply elem_of_app. by left.
    + intros x Hx. apply elem_of_app. by left.
  - eapply accepted_later; [| |by eapply IH]; simpl; [done|].
    intros x Hx. apply elem_of_app. by right.
Qed.

Lemma for_entries_quiet fuel base entries tree r :
  inspections_quiet fs →
  for_entries (λ p t, build_tree fuel p (Some t)) base entries tree
    = Some r →
  raised r ≠ Some PermissionError.
Proof.
  intros Hquiet.
  revert tree r. induction entries as [|entry rest IH]; intros tree r.
  { by intros [= <-]. }
  rewrite for_entries_cons.
  destruct (visit_entry _ base entry tree) as [r0|] eqn:Hv; [|done].
  assert (raised r0 ≠ Some PermissionError) as Hr0.
  { intros Hperm.
    revert Hv Hperm. unfold visit_entry.
    destruct (Hquiet (join base entry)) as [[d ->] [f ->]].
    destruct (d && _).
    - destruct (build_tree _ _ _) as [rs|] eqn:Hrs; [|done].
      intros [= <-]. simpl. by eapply build_tree_not_permission.
    - destruct (f && _); by intros [= <-]. }
  destruct (raised r0) eqn:Hraised0; [intros [= <-]; congruence|].
  destruct (for_entries _ base rest _) as [r1|] eqn:Hr1; [|done].
  intros [= <-]. simpl. by eapply IH.
Qed.

(** On a filesystem whose inspections do not raise, a call that returns
    normally after a successful listing has processed every entry. *)
Lemma build_tree_complete fuel base tree r names :
  inspections_quiet fs →
  build_tree fuel base tree = Some r →
  raised r = None →
  listdir fs base = Ok names →
  ∀ e, e ∈ names → accepted base e r.
Proof.
  intros Hquiet.
  destruct fuel as [|fuel]; [done|]. rewrite build_tree_unfold.
  unfold try_block. intros Hr Hraised Hlist e He. rewrite Hlist in Hr.
  destruct (for_entries _ _ _ _) as [r0|] eqn:Hr0; [|done].
  pose proof (for_entries_quiet _ _ _ _ _ Hquiet Hr0) as Hnoperm.
  injection Hr as <-. unfold handle in *. simpl in *.
  destruct (raised r0) as [[]|] eqn:Hraised0; try done.
  apply (accepted_later base e r0); simpl; [done|by right; auto|].
  eapply for_entries_complete; [exact Hr0|done|].
  unfold sorted. by rewrite merge_sort_Permutation.
Qed.

(** C9.  The two exclusion sets apply to their own kind only.  When a
    call returns normally after listing [base] (on a filesystem whose
    inspections do not raise), an entry that is a regular file and whose
    name is in [exclude_dirs] but not in [exclude_files] has its file
    node, and an entry that is a directory and whose name is in
    [exclude_files] but not in [exclude_dirs] has its directory node and
    was listed. *)
Theorem exclusion_sets_are_kind_specific fuel base tree r names entry :
  inspections_quiet fs →
  build_tree fuel base tree = Some r →
  raised r = None →
  listdir fs base = Ok names →
  entry ∈ names →
  (isdir fs (join base entry) = Ok false →
   isfile fs (join base entry) = Ok true →
   entry ∈ exclude_dirs → entry ∉ exclude_files →
     Node (file_label entry) [] ∈ children (tree_of r)) ∧
  (isdir fs (join base entry) = Ok true →
   entry ∈ exclude_files → entry ∉ exclude_dirs →
     (∃ sub, Node (dir_label entry) sub ∈ children (tree_of r)) ∧
     Listdir (join base entry) ∈ calls r).
Proof.
  intros Hquiet Hr Hraised Hlist Hentry.
  destruct (build_tree_complete _ _ _ _ _ Hquiet Hr Hraised Hlist entry
              Hentry) as [Hd Hf].
  split; [intros ?? _ ?|intros ? _ ?]; auto.
Qed.

(** C4, as the code has it.  A symbolic link is classified by what
    [isdir] and [isfile], which follow links, say of it.  When a call
    returns normally after listing [base] (on a filesystem whose
    inspections do not raise), an entry that is a link to a directory and
    is not excluded has a directory node and was listed, a link to a
    regular file that is not excluded has a file node, and only a link
    that resolves to neither has no node, was not listed, and had nothing
    below it looked at. *)
Theorem symlink_classified_by_target fuel base tree r names entry :
  inspections_quiet fs →
  names_valid fs →
  build_tree fuel base tree = Some r →
  raised r = None →
  listdir fs base = Ok names →
  entry ∈ names →
  islink fs (join base entry) = true →
  (isdir fs (join base entry) = Ok true → entry ∉ exclude_dirs →
     (∃ sub, Node (dir_label entry) sub ∈ children (tree_of r)) ∧
     Listdir (join base entry) ∈ calls r) ∧
  (isdir fs (join base entry) = Ok false →
   isfile fs (join base entry) = Ok true → entry ∉ exclude_files →
     Node (file_label entry) [] ∈ children (tree_of r)) ∧
  (isdir fs (join base entry) = Ok false →
   isfile fs (join base entry) = Ok false →
     (∃ added,
        children (tree_of r) =
          children (default (Node (root_label base) []) tree) ++ added ∧
        ∀ c, c ∈ added →
          label c ≠ dir_label entry ∧ label c ≠ file_label entry) ∧
     (∀ c, c ∈ calls r →
        c ≠ Listdir (join base entry) ∧
        ¬ under (join base entry) (path_of c))).
Proof.
  intros Hquiet Hvalid Hr Hraised Hlist Hentry _.
  destruct (build_tree_complete _ _ _ _ _ Hquiet Hr Hraised Hlist entry
              Hentry) as [Hd Hf].
  split_and!; [done..|]. intros Hdir Hfile. split.
  - eapply children_avoid; [done|..]; intros [? _]; congruence.
  - eapply calls_avoid; [done..|]. intros [? _]. congruence.
Qed.
End entries.

(** ** The scenarios *)

Lemma table_cases {A} (P : A → Prop) rows otherwise p :
  Forall (λ row, P row.2) rows → P otherwise → P (table rows otherwise p).
Proof.
  intros Hrows Hother. induction Hrows as [|[q a] rows Ha _ IH]; [done|].
  simpl. by case_bool_decide.
Qed.

Ltac table_rows :=
  apply table_cases; [repeat constructor|]; simpl.

Ltac listed_names :=
  first [ by intros [=]
        | intros [= <-]; apply (bool_decide_unpack _); vm_compute; exact I ].

Lemma project_fs_valid : names_valid project_fs.
Proof.
  intros p names. unfold project_fs, listdir. table_rows; listed_names.
Qed.

Lemma symlink_fs_valid : names_valid symlink_fs.
Proof.
  intros p names. unfold symlink_fs, listdir. table_rows; listed_names.
Qed.

Lemma symlink_fs_quiet : inspections_quiet symlink_fs.
Proof.
  intros p. unfold symlink_fs, isdir, isfile.
  split; table_rows; by eexists.
Qed.

Lemma clash_fs_quiet : inspections_quiet clash_fs.
Proof.
  intros p. unfold clash_fs, isdir, isfile.
  split; table_rows; by eexists.
Qed.

(** The first scenario of the specification. *)
Example project_tree :
  build_tree project_fs {[ ".venv" ]} ∅ 3 "/proj" None = Some project_run.
Proof. vm_compute. reflexivity. Qed.

(** [.venv] in the scenario of the specification. *)
Lemma excluded_directory_is_pruned_witness :
  (∃ added,
     children (tree_of project_run) = [] ++ added ∧
     ∀ c, c ∈ added →
       label c ≠ dir_label ".venv" ∧ label c ≠ file_label ".venv") ∧
  (∀ c, c ∈ calls project_run →
     c ≠ Listdir "/proj/.venv" ∧ ¬ under "/proj/.venv" (path_of c)).
Proof.
  assert (".venv" ∈ ["src"; "readme.md"; ".venv"]) as Hentry
    by (right; right; left).
  destruct (excluded_directory_is_pruned project_fs {[ ".venv" ]} ∅ 3 "/proj"
              None project_run "/proj" ["src"; "readme.md"; ".venv"] ".venv"
              project_fs_valid project_tree (list_elem_of_here _ _) eq_refl
              Hentry (elem_of_singleton_2 _ _ eq_refl) (conj eq_refl eq_refl))
    as [Hnodes Hcalls].
  split; [|exact Hcalls]. exact (Hnodes 3 None project_run project_tree).
Defined.

(** On [clash_fs], with [build] an excluded directory name and [notes] an
    excluded file name: the file [build] and the directory [notes] stay. *)
Lemma exclusion_sets_are_kind_specific_witness :
  ∃ r, build_tree clash_fs {[ "build" ]} {[ "notes" ]} 3 "/r" None = Some r ∧
    Node (file_label "build") [] ∈ children (tree_of r) ∧
    (∃ sub, Node (dir_label "notes") sub ∈ children (tree_of r)) ∧
    Listdir "/r/notes" ∈ calls r.
Proof.
  eexists. split; [reflexivity|].
  assert ("build" ∈ ["notes"; "build"]) as Hbuild by (right; left).
  assert ("notes" ∈ ["notes"; "build"]) as Hnotes by left.
  assert ("build" ∉ ({[ "notes" ]} : gset string)) as Hb
    by (by intros [=]%elem_of_singleton).
  assert ("notes" ∉ ({[ "build" ]} : gset string)) as Hn
    by (by intros [=]%elem_of_singleton).
  split.
  - exact (proj1 (exclusion_sets_are_kind_specific clash_fs {[ "build" ]}
             {[ "notes" ]} 3 "/r" None _ ["notes"; "build"] "build"
             clash_fs_quiet eq_refl eq_refl eq_refl Hbuild)
           eq_refl eq_refl (elem_of_singleton_2 _ _ eq_refl) Hb).
  - exact (proj2 (exclusion_sets_are_kind_specific clash_fs {[ "build" ]}
             {[ "notes" ]} 3 "/r" None _ ["notes"; "build"] "notes"
             clash_fs_quiet eq_refl eq_refl eq_refl Hnotes)
           eq_refl (elem_of_singleton_2 _ _ eq_refl) Hn).
Defined.

(** C4 as stated fails: [to_dir] and [to_file] are symbolic links, yet each
    has its node, and [/r/to_dir] is listed and its content shown; only the
    dangling link is left out. *)
Lemma symlinks_are_followed :
  islink symlink_fs "/r/to_dir" = true ∧
  islink symlink_fs "/r/to_file" = true ∧
  build_tree symlink_fs ∅ ∅ 2 "/r" None =
  Some (Run
    (Node (root_label "/r")
       [Node (dir_label "to_dir") [Node (file_label "x") []];
        Node (file_label "to_file") []])
    [Listdir "/r"; Isdir "/r/dangling"; Isfile "/r/dangling";
     Isdir "/r/to_dir"; Listdir "/r/to_dir";
     Isdir "/r/to_dir/x"; Isfile "/r/to_dir/x";
     Isdir "/r/to_file"; Isfile "/r/to_file"]
    None).
Proof. repeat split; vm_compute; reflexivity. Qed.

(** On [symlink_fs]: the link to a directory, and the dangling link. *)
Lemma symlink_classified_by_target_witness :
  ∃ r, build_tree symlink_fs ∅ ∅ 2 "/r" None = Some r ∧
    ((∃ sub, Node (dir_label "to_dir") sub ∈ children (tree_of r)) ∧
     Listdir "/r/to_dir" ∈ calls r) ∧
    (∀ c, c ∈ calls r →
       c ≠ Listdir "/r/dangling" ∧ ¬ under "/r/dangling" (path_of c)).
Proof.
  eexists. split; [reflexivity|].
  assert ("to_dir" ∈ ["to_file"; "to_dir"; "dangling"]) as Hdir
    by (right; left).
  assert ("dangling" ∈ ["to_file"; "to_dir"; "dangling"]) as Hdangling
    by (right; right; left).
  split.
  - exact (proj1 (symlink_classified_by_target symlink_fs ∅ ∅ 2 "/r" None _
             ["to_file"; "to_dir"; "dangling"] "to_dir"
             symlink_fs_quiet symlink_fs_valid eq_refl eq_refl eq_refl
             Hdir eq_refl)
           eq_refl (not_elem_of_empty _)).
  - exact (proj2 (proj2 (proj2 (symlink_classified_by_target symlink_fs ∅ ∅ 2
             "/r" None _ ["to_file"; "to_dir"; "dangling"] "dangling"
             symlink_fs_quiet symlink_fs_valid eq_refl eq_refl eq_refl
             Hdangling eq_refl)) eq_refl eq_refl)).
Defined.


(** * Further properties of [build_tree] *)

Section shape.
Context (fs : filesystem) (exclude_dirs exclude_files : gset string).

Local Abbreviation visit_entry := (visit_entry fs exclude_dirs exclude_files).
Local Abbreviation for_entries := (for_entries fs exclude_dirs exclude_files).
Local Abbreviation try_block := (try_block fs exclude_dirs exclude_files).
Local Abbreviation build_tree := (build_tree fs exclude_dirs exclude_files).
Local Abbreviation node_allowed := (node_allowed exclude_dirs exclude_files).

Lemma nodes_unfold l kids : nodes (Node l kids) = Node l kids :: flat_map nodes kids.
Proof. done. Qed.

Lemma flat_map_nodes_app ks ks' :
  flat_map nodes (ks ++ ks') = flat_map nodes ks ++ flat_map nodes ks'.
Proof. apply flat_map_app. Qed.

Lemma for_entries_allowed rec base entries l kids0 r :
  (∀ p l' r', rec p (Node l' []) = Some r' →
     label (tree_of r') = l' ∧ Forall node_allowed (descendants (tree_of r'))) →
  for_entries rec base entries (Node l kids0) = Some r →
  ∃ kids, tree_of r = Node l (kids0 ++ kids) ∧
          Forall node_allowed (flat_map nodes kids).
Proof.
  intros Hrec. revert kids0 r.
  induction entries as [|entry rest IH]; intros kids0 r.
  { intros [= <-]. exists []. rewrite app_nil_r. by split. }
  rewrite for_entries_cons.
  destruct (visit_entry rec base entry (Node l kids0)) as [r0|] eqn:Hv; [|done].
  assert (∃ kids, tree_of r0 = Node l (kids0 ++ kids) ∧
                  Forall node_allowed (flat_map nodes kids))
    as (new0 & Ht0 & Hn0).
  { revert Hv. unfold visit_entry.
    destruct (isdir fs _) as [d|e].
    2:{ intros [= <-]. exists []. rewrite app_nil_r. by split. }
    destruct (d && _) eqn:Hd.
    - destruct (rec _ _) as [rs|] eqn:Hrs; [|done].
      destruct (Hrec _ _ _ Hrs) as [Hl Hbelow].
      apply andb_true_iff in Hd as [_ Hex%negb_true_iff].
      apply bool_decide_eq_false in Hex.
      intros [= <-]. exists [tree_of rs]. split; [done|].
      simpl. rewrite app_nil_r. destruct (tree_of rs) as [l' sub].
      simpl in Hl. subst l'. rewrite nodes_unfold. apply Forall_cons.
      split; [|done]. left. by exists entry.
    - destruct (isfile fs _) as [f|e].
      2:{ intros [= <-]. exists []. rewrite app_nil_r. by split. }
      destruct (f && _) eqn:Hf; intros [= <-].
      + apply andb_true_iff in Hf as [_ Hex%negb_true_iff].
        apply bool_decide_eq_false in Hex.
        exists [Node (file_label entry) []]. split; [done|].
        simpl. apply Forall_cons. split; [|by apply Forall_nil].
        right; left. by exists entry.
      + exists []. rewrite app_nil_r. by split. }
  destruct (raised r0); [intros [= <-]; eauto|].
  rewrite Ht0.
  destruct (for_entries rec base rest _) as [r1|] eqn:Hr1; [|done].
  destruct (IH _ _ Hr1) as (new1 & Ht1 & Hn1).
  intros [= <-]. exists (new0 ++ new1). simpl. split.
  - by rewrite Ht1, (assoc_L (++)).
  - rewrite flat_map_nodes_app. by apply Forall_app.
Qed.

Lemma build_tree_allowed fuel base l r :
  build_tree fuel base (Some (Node l [])) = Some r →
  label (tree_of r) = l ∧ Forall node_allowed (descendants (tree_of r)).
Proof.
  revert base l r. induction fuel as [|fuel IH]; intros base l r; [done|].
  rewrite build_tree_unfold. unfold try_block. simpl default.
  assert (Forall node_allowed (flat_map nodes [Node (perm_label base) []]))
    as Hleaf.
  { simpl. apply Forall_cons. split; [|by apply Forall_nil].
    right; right. by exists base. }
  destruct (listdir fs base) as [names|e].
  - destruct (for_entries _ _ _ _) as [r0|] eqn:Hr0; [|done].
    apply for_entries_allowed in Hr0 as (kids & Ht & Hkids); [|exact IH].
    simpl in Ht. intros [= <-]. unfold handle; simpl.
    destruct (raised r0) as [[]|]; simpl; rewrite Ht; simpl;
      (split; [done|]); unfold descendants; simpl; [|done..].
    rewrite flat_map_nodes_app. by apply Forall_app.
  - intros [= <-]. unfold handle; simpl.
    destruct e; simpl; (split; [done|]); by unfold descendants.
Qed.

(** X1.  In the tree that [build_tree] returns for a root, every node below
    the root, at whatever depth, is the node of a directory whose name is
    not in [exclude_dirs], a childless node of a file whose name is not in
    [exclude_files], or a childless permission-denied leaf. *)
Theorem exclusions_hold_at_every_depth fuel base r n :
  build_tree fuel base None = Some r →
  n ∈ descendants (tree_of r) →
  node_allowed n.
Proof.
  intros Hr Hn. destruct fuel as [|fuel]; [done|].
  change (build_tree (S fuel) base (Some (Node (root_label base) [])) = Some r)
    in Hr.
  apply build_tree_allowed in Hr as [_ Hall].
  rewrite Forall_forall in Hall. auto.
Qed.
End shape.

Section escapes.
Context (fs : filesystem) (exclude_dirs exclude_files : gset string).

Local Abbreviation visit_entry := (visit_entry fs exclude_dirs exclude_files).
Local Abbreviation for_entries := (for_entries fs exclude_dirs exclude_files).
Local Abbreviation try_block := (try_block fs exclude_dirs exclude_files).
Local Abbreviation build_tree := (build_tree fs exclude_dirs exclude_files).

Lemma calls_handle base r : calls (handle base r) = calls r.
Proof. unfold handle. by destruct (raised r) as [[]|]. Qed.

Lemma raised_handle base r e :
  raised (handle base r) = Some e → raised r = Some e.
Proof.
  unfold handle. destruct (raised r) as [[]|] eqn:Hr; simpl; by rewrite ?Hr.
Qed.

Lemma last_listing_after cs cs' p :
  last cs' = Some (Listdir p) → last (cs ++ cs') = Some (Listdir p).
Proof. intros H. by rewrite last_app, H. Qed.

(** X2.  No [PermissionError] ever leaves [build_tree]; and where the
    inspections do not raise, an exception that leaves it is the exception of
    a listing that failed, which is the last call the traversal made. *)
Theorem only_listing_failures_escape fuel base tree r e :
  build_tree fuel base tree = Some r →
  raised r = Some e →
  e ≠ PermissionError ∧
  (inspections_quiet fs →
   ∃ p, last (calls r) = Some (Listdir p) ∧ listdir fs p = Raise e).
Proof.
  intros Hr He. split.
  { intros ->. exact (build_tree_not_permission _ _ _ _ _ _ _ Hr He). }
  intros Hquiet. revert base tree r Hr He.
  induction fuel as [|fuel IH]; intros base tree r; [done|].
  rewrite build_tree_unfold.
  set (rec := λ q t, build_tree fuel q (Some t)).
  assert (∀ entries t r', for_entries rec base entries t = Some r' →
            raised r' = Some e →
            ∃ p, last (calls r') = Some (Listdir p) ∧ listdir fs p = Raise e)
    as Hfor.
  { induction entries as [|entry rest IHrest]; intros t r'; [by intros [= <-]|].
    rewrite for_entries_cons.
    destruct (visit_entry rec base entry t) as [r0|] eqn:Hv; [|done].
    assert (raised r0 = Some e →
            ∃ p, last (calls r0) = Some (Listdir p) ∧ listdir fs p = Raise e)
      as Hr0.
    { revert Hv. unfold visit_entry.
      destruct (Hquiet (join base entry)) as [[d ->] [f ->]].
      destruct (d && _).
      - destruct (rec _ _) as [rs|] eqn:Hrs; [|done].
        intros [= <-]; simpl. intros Hraised.
        destruct (IH _ _ _ Hrs Hraised) as (p & Hlast & Hp).
        exists p. split; [|done].
        by apply (last_listing_after [Isdir (join base entry)]).
      - destruct (f && _); by intros [= <-]. }
    destruct (raised r0) eqn:Hraised0; [intros [= <-] ?; apply Hr0; congruence|].
    destruct (for_entries rec base rest _) as [r1|] eqn:Hr1; [|done].
    intros [= <-]; simpl. intros Hraised.
    destruct (IHrest _ _ Hr1 Hraised) as (p & Hlast & Hp).
    exists p. split; [|done]. by apply last_listing_after. }
  unfold try_block. destruct (listdir fs base) as [names|e0] eqn:Hlist.
  - destruct (for_entries _ _ _ _) as [r0|] eqn:Hr0; [|done].
    intros [= <-] Hraised%raised_handle. simpl in Hraised.
    destruct (Hfor _ _ _ Hr0 Hraised) as (p & Hlast & Hp).
    exists p. rewrite calls_handle. simpl calls. split; [|done].
    by apply (last_listing_after [Listdir base]).
  - intros [= <-] Hraised%raised_handle. simpl in Hraised.
    injection Hraised as ->. exists base. by rewrite calls_handle.
Qed.

Lemma visit_entry_graft rec base entry l kids kids' :
  visit_entry rec base entry (Node l (kids ++ kids')) =
  graft kids <$> visit_entry rec base entry (Node l kids').
Proof.
  unfold visit_entry, graft, add, add_node.
  destruct (isdir fs _) as [d|e]; [|done].
  destruct (d && _).
  - destruct (rec _ _) as [rs|]; [|done]. simpl. by rewrite (assoc_L (++)).
  - destruct (isfile fs _) as [f|e]; [|done].
    destruct (f && _); [|done]. simpl. by rewrite (assoc_L (++)).
Qed.

Lemma for_entries_graft rec base entries l kids kids' :
  for_entries rec base entries (Node l (kids ++ kids')) =
  graft kids <$> for_entries rec base entries (Node l kids').
Proof.
  revert l kids'. induction entries as [|entry rest IH]; intros l kids'; [done|].
  rewrite !for_entries_cons, visit_entry_graft.
  destruct (visit_entry rec base entry (Node l kids')) as [r0|]; [|done].
  simpl. destruct (raised r0); [done|].
  destruct (tree_of r0) as [l0 kids0]. simpl. rewrite IH.
  by destruct (for_entries rec base rest (Node l0 kids0)).
Qed.

Lemma handle_graft base kids r :
  handle base (graft kids r) = graft kids (handle base r).
Proof.
  unfold handle, graft, add, add_node. simpl.
  destruct (raised r) as [[]|] eqn:Hr; simpl;
    by rewrite ?Hr, ?(assoc_L (++)).
Qed.

(** X3.  What a call adds to the node that it is given does not depend on
    what the node already holds: the run on a node with the children [kids]
    is the run on the empty node with [kids] put in front. *)
Theorem node_content_is_only_appended fuel base l kids :
  build_tree fuel base (Some (Node l kids)) =
  graft kids <$> build_tree fuel base (Some (Node l [])).
Proof.
  destruct fuel as [|fuel]; [done|]. rewrite !build_tree_unfold.
  unfold try_block. simpl default.
  destruct (listdir fs base) as [names|e].
  - rewrite <-(app_nil_r kids) at 1. rewrite for_entries_graft.
    destruct (for_entries _ _ _ (Node l [])) as [r0|]; [|done].
    simpl. f_equal. by rewrite <-handle_graft.
  - simpl. f_equal. rewrite <-handle_graft. unfold graft. simpl.
    by rewrite app_nil_r.
Qed.

Lemma for_entries_labels fuel base entries tree r :
  inspections_quiet fs →
  for_entries (λ p t, build_tree fuel p (Some t)) base entries tree = Some r →
  raised r = None →
  label <$> children (tree_of r) =
  (label <$> children tree) ++
    omap (classify fs exclude_dirs exclude_files base) entries.
Proof.
  intros Hquiet. revert tree r.
  induction entries as [|entry rest IH]; intros tree r.
  { intros [= <-] _. simpl. by rewrite app_nil_r. }
  rewrite for_entries_cons.
  destruct (visit_entry _ base entry tree) as [r0|] eqn:Hv; [|done].
  destruct (raised r0) eqn:Hraised0; [intros [= <-] ?; congruence|].
  destruct (for_entries _ base rest _) as [r1|] eqn:Hr1; [|done].
  intros [= <-] Hraised. simpl in *.
  rewrite (IH _ _ Hr1 Hraised).
  assert (label <$> children (tree_of r0) =
          (label <$> children tree) ++
            from_option (λ x, [x]) []
              (classify fs exclude_dirs exclude_files base entry)) as ->.
  { revert Hv. unfold visit_entry, classify.
    destruct (Hquiet (join base entry)) as [[d ->] [f ->]].
    destruct (d && _).
    - destruct (build_tree _ _ _) as [rs|] eqn:Hrs; [|done].
      destruct (build_tree_ordered _ _ _ _ _ _ _ Hrs) as [Hl _].
      intros [= <-]. simpl. rewrite fmap_app. simpl. by rewrite Hl.
    - destruct (f && _); intros [= <-]; simpl;
        by rewrite ?fmap_app, ?app_nil_r. }
  rewrite <-(assoc_L (++)). f_equal.
  by destruct (classify fs exclude_dirs exclude_files base entry).
Qed.

(** X4.  When a call returns normally after listing [base] (on a
    filesystem whose inspections do not raise), the labels of the children
    of the root are exactly, and in this order, the labels of those sorted
    entries that are a directory with a name not in [exclude_dirs] or else a
    regular file with a name not in [exclude_files]. *)
Theorem children_are_the_accepted_entries fuel base r names :
  inspections_quiet fs →
  build_tree fuel base None = Some r →
  raised r = None →
  listdir fs base = Ok names →
  label <$> children (tree_of r) =
  omap (classify fs exclude_dirs exclude_files base) (sorted names).
Proof.
  intros Hquiet. destruct fuel as [|fuel]; [done|].
  rewrite build_tree_unfold. unfold try_block. intros Hr Hraised Hlist.
  rewrite Hlist in Hr.
  destruct (for_entries _ _ _ _) as [r0|] eqn:Hr0; [|done].
  pose proof (for_entries_quiet _ _ _ _ _ _ _ _ Hquiet Hr0) as Hnoperm.
  pose proof (for_entries_labels _ _ _ _ _ Hquiet Hr0) as Hlabels.
  injection Hr as <-. unfold handle in Hraised |- *. simpl in Hraised |- *.
  destruct (raised r0) as [[]|] eqn:Hraised0; try done.
  simpl. by rewrite Hlabels.
Qed.


Lemma listed_as_entry_later root cs cs' p :
  cs ⊆ cs' →
  listed_as_entry fs exclude_dirs root cs p →
  listed_as_entry fs exclude_dirs root cs' p.
Proof.
  intros Hsub (Hdir & d & names & e & Hd & H). split; [done|].
  exists d, names, e. split; [|done]. destruct Hd as [->|Hd]; auto.
Qed.

(** X6.  Apart from the root, [build_tree] lists only what [isdir]
    accepted as an entry, with a name not in [exclude_dirs], of a directory
    that it has listed. *)
Theorem only_accepted_directories_are_listed fuel root tree r p :
  build_tree fuel root tree = Some r →
  Listdir p ∈ calls r →
  p = root ∨ listed_as_entry fs exclude_dirs root (calls r) p.
Proof.
  revert root tree r p.
  induction fuel as [|fuel IH]; intros root tree r p; [done|].
  rewrite build_tree_unfold.
  set (rec := λ q t, build_tree fuel q (Some t)).
  assert (∀ names entries t r', listdir fs root = Ok names →
            entries ⊆ names →
            for_entries rec root entries t = Some r' →
            ∀ p, Listdir p ∈ calls r' →
                 listed_as_entry fs exclude_dirs root (calls r') p) as Hfor.
  { intros names entries t r' Hlist. revert t r'.
    induction entries as [|entry rest IHrest]; intros t r' Hsub.
    { intros [= <-] q. by intros ?%elem_of_nil. }
    rewrite for_entries_cons.
    destruct (visit_entry rec root entry t) as [r0|] eqn:Hv; [|done].
    assert (∀ q, Listdir q ∈ calls r0 →
                 listed_as_entry fs exclude_dirs root (calls r0) q) as Hr0.
    { revert Hv. unfold visit_entry.
      destruct (isdir fs _) as [d|e] eqn:Hdir.
      2:{ intros [= <-] q [=]%list_elem_of_singleton. }
      destruct (d && _) eqn:Hd.
      - destruct (rec _ _) as [rs|] eqn:Hrs; [|done].
        apply andb_true_iff in Hd as [-> Hex%negb_true_iff].
        apply bool_decide_eq_false in Hex.
        intros [= <-] q [[=]|Hq]%elem_of_cons. simpl.
        destruct (IH _ _ _ _ Hrs Hq) as [->|Hentry].
        + split; [done|]. exists root, names, entry.
          split_and!; [by left|done| |done..]. apply Hsub. by left.
        + destruct Hentry as (Hqdir & d & names' & e & Hd & Hrest).
          split; [done|]. exists d, names', e. split; [|done]. right.
          destruct Hd as [->|Hd]; right; [|done].
          by eapply build_tree_lists_first.
      - assert (∀ q, Listdir q ∉
                  [Isdir (join root entry); Isfile (join root entry)]) as Hno
          by (by intros q [[=]|[=]%list_elem_of_singleton]%elem_of_cons).
        destruct (isfile fs _) as [f|e].
        2:{ intros [= <-] q Hq. by apply Hno in Hq. }
        destruct (f && _); intros [= <-] q Hq; by apply Hno in Hq. }
    destruct (raised r0); [by intros [= <-]|].
    destruct (for_entries rec root rest _) as [r1|] eqn:Hr1; [|done].
    intros [= <-] q [Hq|Hq]%elem_of_app; simpl.
    - eapply listed_as_entry_later; [|by apply Hr0].
      intros x Hx. apply elem_of_app. by left.
    - eapply listed_as_entry_later; [|eapply IHrest; [|done..]].
      + intros x Hx. apply elem_of_app. by right.
      + intros x Hx. apply Hsub. by right. }
  unfold try_block. destruct (listdir fs root) as [names|e] eqn:Hlist.
  - destruct (for_entries _ _ _ _) as [r0|] eqn:Hr0; [|done].
    intros [= <-]. rewrite calls_handle. simpl.
    intros [[= ->]|Hp]%elem_of_cons; [by left|]. right.
    eapply listed_as_entry_later; [|eapply (Hfor names); [done| |done..]].
    + intros x Hx. by right.
    + intros x Hx. unfold sorted in Hx.
      by rewrite merge_sort_Permutation in Hx.
  - intros [= <-]. rewrite calls_handle. simpl.
    intros [= ->]%list_elem_of_singleton. by left.
Qed.
End escapes.

(** * Further properties of [load_exclusions] *)

Lemma set_of_items_strings names :
  set_of_items (JString <$> names) = Ok (list_to_set names).
Proof.
  induction names as [|x names IH]; [done|].
  rewrite fmap_cons. cbn [set_of_items str_member]. by rewrite IH.
Qed.

(** X7.  For a configuration that is a JSON object in which each of the two
    keys is absent or holds an array of strings, [load_exclusions] returns
    the sets of the strings of the two arrays (the empty set for an absent
    key, a repeated string once) and prints nothing. *)
Theorem load_well_formed open_json_load config_file members dirs files :
  open_json_load config_file = Ok (JObject members) →
  default (JArray []) (members !! "exclude_dirs") = JArray (JString <$> dirs) →
  default (JArray []) (members !! "exclude_files") =
    JArray (JString <$> files) →
  load_exclusions open_json_load config_file =
  Loaded (Ok (list_to_set dirs, list_to_set files)) [].
Proof.
  intros Hopen Hdirs Hfiles. unfold load_exclusions, load_try.
  rewrite Hopen. cbn [result_bind get]. rewrite Hdirs, Hfiles.
  cbn [set_]. rewrite !set_of_items_strings. done.
Qed.

(** The configuration of the scenarios, and one without [exclude_files]. *)
Lemma load_well_formed_witness :
  load_exclusions (config_at (Ok usual_config)) "exclusions.json" =
    Loaded (Ok (list_to_set [".venv"; "build"; ".venv"],
                list_to_set ["a.log"])) [] ∧
  load_exclusions
    (config_at (Ok (JObject {[ "exclude_dirs" := JArray [JString ".git"] ]})))
    "exclusions.json" =
    Loaded (Ok (list_to_set [".git"], list_to_set [])) [].
Proof.
  split.
  - exact (load_well_formed (config_at (Ok usual_config)) "exclusions.json" _
             [".venv"; "build"; ".venv"] ["a.log"] eq_refl eq_refl eq_refl).
  - exact (load_well_formed
             (config_at (Ok (JObject {[ "exclude_dirs" :=
                                          JArray [JString ".git"] ]})))
             "exclusions.json" _ [".git"] [] eq_refl eq_refl eq_refl).
Defined.

Lemma set_of_items_unhashable items :
  Exists unhashable items → set_of_items items = Raise TypeError.
Proof.
  induction items as [|x items IH]; intros Hex; [by apply Exists_nil in Hex|].
  simpl. destruct x; simpl; try done;
    apply Exists_cons in Hex as [[]|Hex]; by rewrite IH.
Qed.

(** X8.  When the array under [exclude_dirs] of a JSON object holds an item
    that is itself an array or an object, at whatever position,
    [load_exclusions] raises [TypeError] and prints no warning. *)
Theorem load_unhashable_item open_json_load config_file members items :
  open_json_load config_file = Ok (JObject members) →
  members !! "exclude_dirs" = Some (JArray items) →
  Exists unhashable items →
  load_exclusions open_json_load config_file = Loaded (Raise TypeError) [].
Proof.
  intros Hopen Hdirs Hex. unfold load_exclusions, load_try.
  rewrite Hopen. cbn [result_bind get]. rewrite Hdirs.
  change (default (JArray []) (Some (JArray items))) with (JArray items).
  cbn [result_bind set_]. by rewrite (set_of_items_unhashable _ Hex).
Qed.

Lemma load_unhashable_item_witness :
  load_exclusions (config_at (Ok nested_config)) "exclusions.json" =
  Loaded (Raise TypeError) [].
Proof.
  apply (load_unhashable_item (config_at (Ok nested_config)) "exclusions.json"
           _ [JString "build"; JArray [JString "dist"]] eq_refl eq_refl).
  apply Exists_cons. right. apply Exists_cons. left. exact I.
Defined.

(** * Properties of [get_directory] *)

Section get_directory.
Context (fs : filesystem) (os : session).

Lemma get_directory_cons line rest :
  get_directory fs os (line :: rest) =
  if is_empty (strip line) then
    match getcwd os with
    | Raise e => (Failed e, [Prompted prompt])
    | Ok cwd => (Chosen cwd, [Prompted prompt; Printed (using_current cwd)])
    end
  else
    match path_exists os (strip line) with
    | Raise e => (Failed e, [Prompted prompt])
    | Ok false =>
      (fst (get_directory fs os rest),
       Prompted prompt :: Printed invalid_directory ::
         snd (get_directory fs os rest))
    | Ok true =>
      match isdir fs (strip line) with
      | Raise e => (Failed e, [Prompted prompt])
      | Ok true => (Chosen (strip line), [Prompted prompt])
      | Ok false =>
        (fst (get_directory fs os rest),
         Prompted prompt :: Printed invalid_directory ::
           snd (get_directory fs os rest))
      end
    end.
Proof.
  simpl. destruct (is_empty _); [done|].
  destruct (path_exists os _) as [[]|]; [|by destruct (get_directory _ _ rest)|done].
  destruct (isdir fs _) as [[]|]; [done|by destruct (get_directory _ _ rest)|done].
Qed.

(** X9.  A path that [get_directory] returns is the current directory,
    announced by the last line printed, or it is the stripped, non-empty
    text of a line of the input that [os.path.exists] and [os.path.isdir]
    both accepted. *)
Theorem chosen_directory_is_validated lines dir_path out :
  get_directory fs os lines = (Chosen dir_path, out) →
  (getcwd os = Ok dir_path ∧
   last out = Some (Printed (using_current dir_path))) ∨
  (∃ line, line ∈ lines ∧ dir_path = strip line ∧
           is_empty dir_path = false ∧
           path_exists os dir_path = Ok true ∧ isdir fs dir_path = Ok true).
Proof.
  revert out. induction lines as [|line rest IH]; intros out; [done|].
  rewrite get_directory_cons.
  assert (∀ out', fst (get_directory fs os rest) = Chosen dir_path →
            snd (get_directory fs os rest) = out' →
            (getcwd os = Ok dir_path ∧
             last (Prompted prompt :: Printed invalid_directory :: out') =
               Some (Printed (using_current dir_path))) ∨
            (∃ line', line' ∈ line :: rest ∧ dir_path = strip line' ∧
               is_empty dir_path = false ∧
               path_exists os dir_path = Ok true ∧
               isdir fs dir_path = Ok true)) as Hrest.
  { intros out' Hc Hout.
    destruct (IH out') as [[Hcwd Hlast]|(line' & Hin & H)].
    - destruct (get_directory fs os rest). simpl in *. congruence.
    - left. split; [done|]. destruct out' as [|o out'']; [done|].
      exact Hlast.
    - right. exists line'. split; [by right|done]. }
  destruct (is_empty (strip line)) eqn:Hempty.
  - destruct (getcwd os) as [cwd|e] eqn:Hcwd; [|done].
    intros [= <- <-]. by left.
  - destruct (path_exists os (strip line)) as [[]|e] eqn:Hex; [| |done].
    + destruct (isdir fs (strip line)) as [[]|e] eqn:Hdir; [| |done].
      * intros [= <- <-]. right. exists line. split; [by left|done].
      * intros [= Hc <-]. by apply Hrest.
    + intros [= Hc <-]. by apply Hrest.
Qed.

(** X10.  Lines that name no existing directory are each answered by the
    prompt and one error message, and the loop goes on with the lines after
    them as if they had not been entered. *)
Theorem invalid_lines_are_asked_again bad rest :
  Forall (rejected fs os) bad →
  get_directory fs os (bad ++ rest) =
  (fst (get_directory fs os rest),
   flat_map (λ _, [Prompted prompt; Printed invalid_directory]) bad ++
     snd (get_directory fs os rest)).
Proof.
  induction 1 as [|line bad [Hempty Hwhy] _ IH].
  { simpl. by destruct (get_directory fs os rest). }
  rewrite <-app_comm_cons, get_directory_cons, Hempty, IH. simpl.
  destruct Hwhy as [->|[-> ->]]; done.
Qed.

Lemma dropwhile_all {A} (f : A → bool) l :
  Forall (λ x, f x = true) l → dropwhile f l = [].
Proof. induction 1 as [|x l Hx _ IH]; [done|]. simpl. by rewrite Hx. Qed.

Lemma strip_blank line :
  Forall (λ ch, is_space ch = true) (characters line) → strip line = EmptyString.
Proof. intros Hall. unfold strip. by rewrite (dropwhile_all _ _ Hall). Qed.

(** X11.  A line that is empty or holds whitespace only selects the current
    directory: [get_directory] prints it and returns it without consulting
    [os.path.exists] or [os.path.isdir], and reads no further line. *)
Theorem blank_line_selects_current_directory line rest cwd :
  Forall (λ ch, is_space ch = true) (characters line) →
  getcwd os = Ok cwd →
  get_directory fs os (line :: rest) =
  (Chosen cwd, [Prompted prompt; Printed (using_current cwd)]).
Proof.
  intros Hblank Hcwd. rewrite get_directory_cons, (strip_blank _ Hblank).
  simpl. by rewrite Hcwd.
Qed.

Lemma get_directory_renders_nothing lines t :
  Rendered t ∉ snd (get_directory fs os lines).
Proof.
  induction lines as [|line rest IH].
  { by intros [=]%list_elem_of_singleton. }
  rewrite get_directory_cons.
  assert (∀ out, Rendered t ∉ out →
            Rendered t ∉ Prompted prompt :: Printed invalid_directory :: out)
    as Hmore.
  { intros out Hout [[=]|[[=]|?]%elem_of_cons]%elem_of_cons. done. }
  assert (Rendered t ∉ [Prompted prompt]) as Hone
    by (by intros [=]%list_elem_of_singleton).
  destruct (is_empty _).
  - destruct (getcwd os); [|done].
    by intros [[=]|[=]%list_elem_of_singleton]%elem_of_cons.
  - destruct (path_exists os _) as [[]|]; [|by apply Hmore|done].
    destruct (isdir fs _) as [[]|]; [done|by apply Hmore|done].
Qed.
End get_directory.

(** On [desk]: two bad lines before [/proj]. *)
Lemma chosen_directory_is_validated_witness :
  ∃ line, line ∈ ["/nowhere"; "/proj/readme.md"; " /proj "; "/later"] ∧
    "/proj" = strip line ∧ is_empty "/proj" = false ∧
    path_exists desk "/proj" = Ok true ∧ isdir project_fs "/proj" = Ok true.
Proof.
  destruct (chosen_directory_is_validated project_fs desk
              ["/nowhere"; "/proj/readme.md"; " /proj "; "/later"] "/proj"
              [Prompted prompt; Printed invalid_directory;
               Prompted prompt; Printed invalid_directory; Prompted prompt]
              eq_refl) as [[Hcwd _]|H].
  - discriminate Hcwd.
  - exact H.
Defined.

Lemma invalid_lines_are_asked_again_witness :
  get_directory project_fs desk ["/nowhere"; "/proj/readme.md"; " /proj "] =
  (Chosen "/proj",
   [Prompted prompt; Printed invalid_directory;
    Prompted prompt; Printed invalid_directory; Prompted prompt]).
Proof.
  assert (Forall (rejected project_fs desk) ["/nowhere"; "/proj/readme.md"])
    as Hbad.
  { apply Forall_cons. split; [split; [done|by left]|].
    apply Forall_cons. split; [split; [done|by right]|apply Forall_nil; done]. }
  exact (invalid_lines_are_asked_again project_fs desk
           ["/nowhere"; "/proj/readme.md"] [" /proj "] Hbad).
Defined.

Lemma blank_line_selects_current_directory_witness :
  get_directory project_fs desk [of_bytes [32; 9; 32]; "/proj"] =
  (Chosen "/home/u", [Prompted prompt; Printed (using_current "/home/u")]).
Proof.
  apply (blank_line_selects_current_directory project_fs desk); [|done].
  apply (bool_decide_unpack _). vm_compute. exact I.
Defined.

(** * Properties of the main block *)

Section main.
Context (open_json_load : string → result json) (fs : filesystem)
  (os : session) (fuel : nat) (args_config : string) (lines : list string).

(** X12.  When the configuration file is missing or is not JSON, the main
    block prints the warning, asks for the directory and, when the traversal
    with both exclusion sets empty returns, renders its tree and finishes;
    with inspections that do not raise, every entry of the chosen directory
    that is a directory, and every other entry that is a regular file, has
    its node under the root of the rendered tree. *)
Theorem main_without_config_shows_everything e project_dir asked r :
  open_json_load args_config = Raise e →
  e = FileNotFoundError ∨ e = JSONDecodeError →
  get_directory fs os lines = (Chosen project_dir, asked) →
  build_tree fs ∅ ∅ fuel project_dir None = Some r →
  raised r = None →
  main open_json_load fs os fuel args_config lines =
    Some (Finished,
          Printed (warning args_config) :: asked ++ [Rendered (tree_of r)]) ∧
  (inspections_quiet fs →
   ∀ names entry, listdir fs project_dir = Ok names → entry ∈ names →
     (isdir fs (join project_dir entry) = Ok true →
        ∃ sub, Node (dir_label entry) sub ∈ children (tree_of r)) ∧
     (isdir fs (join project_dir entry) = Ok false →
      isfile fs (join project_dir entry) = Ok true →
        Node (file_label entry) [] ∈ children (tree_of r))).
Proof.
  intros Hopen He Hdir Hr Hraised. split.
  - unfold main, load_exclusions, load_try. rewrite Hopen.
    destruct He as [-> | ->]; cbn [result_bind returned printed];
      by rewrite Hdir, Hr, Hraised.
  - intros Hquiet names entry Hlist Hentry.
    destruct (build_tree_complete fs ∅ ∅ fuel project_dir None r names
                Hquiet Hr Hraised Hlist entry Hentry) as [Hd Hf].
    split.
    + intros Hisdir. apply Hd; [done|]. apply not_elem_of_empty.
    + intros Hisdir Hisfile. apply Hf; [done..|]. apply not_elem_of_empty.
Qed.

(** X13.  The main block renders a tree only as its last output, only when
    it finishes normally, and the tree is then that of a traversal of the
    chosen directory, under the loaded exclusion sets, that returned
    without raising: a partial tree is never shown. *)
Theorem main_renders_only_finished_trees how out t :
  main open_json_load fs os fuel args_config lines = Some (how, out) →
  Rendered t ∈ out →
  how = Finished ∧ last out = Some (Rendered t) ∧
  ∃ exclude_dirs exclude_files project_dir asked r,
    returned (load_exclusions open_json_load args_config) =
      Ok (exclude_dirs, exclude_files) ∧
    get_directory fs os lines = (Chosen project_dir, asked) ∧
    build_tree fs exclude_dirs exclude_files fuel project_dir None = Some r ∧
    raised r = None ∧ t = tree_of r.
Proof.
  unfold main.
  assert (Rendered t ∉ Printed <$>
            printed (load_exclusions open_json_load args_config)) as Hwarned.
  { by intros (? & [=] & _)%list_elem_of_fmap. }
  pose proof (get_directory_renders_nothing fs os lines t) as Hasked.
  destruct (returned _) as [[dirs files]|e] eqn:Hloaded.
  2: { intros [= <- <-] Hin. done. }
  destruct (get_directory fs os lines) as [[d| |e] asked] eqn:Hdir; simpl in Hasked.
  2,3: intros [= <- <-] [?|?]%elem_of_app; done.
  destruct (build_tree _ _ _ _ _ _) as [r|] eqn:Hr; [|done].
  destruct (raised r) as [e|] eqn:Hraised.
  { intros [= <- <-] [?|?]%elem_of_app; done. }
  intros [= <- <-] [?|[?|Hin%list_elem_of_singleton]%elem_of_app]%elem_of_app;
    [done..|].
  injection Hin as ->. split; [done|]. split.
  - by rewrite !app_assoc, last_snoc.
  - by exists dirs, files, d, asked, r.
Qed.

(** X14.  When opening or parsing the configuration fails with anything but
    [FileNotFoundError] or [JSONDecodeError], the main block ends with that
    exception before it prompts or prints anything. *)
Theorem main_stops_on_unreadable_config e :
  open_json_load args_config = Raise e →
  e ≠ FileNotFoundError → e ≠ JSONDecodeError →
  main open_json_load fs os fuel args_config lines = Some (Uncaught e, []).
Proof.
  intros Hopen Hmissing Hjson. unfold main, load_exclusions, load_try.
  rewrite Hopen. cbn [result_bind]. by destruct e.
Qed.
End main.

(** The scenario of the specification with no configuration at hand. *)
Lemma main_without_config_shows_everything_witness :
  main (config_at (Raise FileNotFoundError)) project_fs desk 3
       "exclusions.json" ["/nowhere"; "/proj/src"] =
    Some (Finished,
          [Printed (warning "exclusions.json");
           Prompted prompt; Printed invalid_directory; Prompted prompt;
           Rendered (Node (root_label "/proj/src")
                       [Node (file_label "a.py") []])]).
Proof.
  exact (proj1 (main_without_config_shows_everything
                  (config_at (Raise FileNotFoundError)) project_fs desk 3
                  "exclusions.json" ["/nowhere"; "/proj/src"]
                  FileNotFoundError "/proj/src"
                  [Prompted prompt; Printed invalid_directory; Prompted prompt]
                  (Run (Node (root_label "/proj/src")
                          [Node (file_label "a.py") []])
                       [Listdir "/proj/src";
                        Isdir "/proj/src/a.py"; Isfile "/proj/src/a.py"] None)
                  eq_refl (or_introl eq_refl) eq_refl eq_refl eq_refl)).
Defined.

Lemma main_renders_only_finished_trees_witness :
  Finished = Finished ∧
  last [Printed (warning "exclusions.json"); Prompted prompt;
        Rendered (Node (root_label "/proj/src")
                    [Node (file_label "a.py") []])] =
    Some (Rendered (Node (root_label "/proj/src")
                      [Node (file_label "a.py") []])) ∧
  ∃ exclude_dirs exclude_files project_dir asked r,
    returned (load_exclusions (config_at (Raise FileNotFoundError))
                "exclusions.json") = Ok (exclude_dirs, exclude_files) ∧
    get_directory project_fs desk ["/proj/src"] = (Chosen project_dir, asked) ∧
    build_tree project_fs exclude_dirs exclude_files 3 project_dir None =
      Some r ∧
    raised r = None ∧
    Node (root_label "/proj/src") [Node (file_label "a.py") []] = tree_of r.
Proof.
  apply (main_renders_only_finished_trees
           (config_at (Raise FileNotFoundError)) project_fs desk 3
           "exclusions.json" ["/proj/src"]); [reflexivity|].
  do 2 apply list_elem_of_further. apply list_elem_of_here.
Defined.

(** A configuration file that may not be read. *)
Lemma main_stops_on_unreadable_config_witness :
  main (config_at (Raise PermissionError)) project_fs desk 3
       "exclusions.json" ["/proj"] = Some (Uncaught PermissionError, []).
Proof.
  by apply (main_stops_on_unreadable_config
              (config_at (Raise PermissionError)) project_fs desk 3
              "exclusions.json" ["/proj"] PermissionError).
Defined.

(** * [DEFAULT_CONFIG_FILE] *)

Lemma slash_free_sep x e : slash_free (x +:+ String "/" e) = false.
Proof.
  induction x as [|c x IH]; [done|].
  rewrite str_app_cons. simpl. rewrite IH. apply andb_false_r.
Qed.

Lemma head_of_slash_free e : slash_free e = true → head_of e = EmptyString.
Proof.
  induction e as [|c e IH]; [done|]. simpl.
  intros [Hc He]%andb_true_iff. rewrite He.
  by destruct (bool_decide (c = "/"%char)).
Qed.

Lemma head_of_sep x e :
  slash_free e = true → head_of (x +:+ String "/" e) = x +:+ "/".
Proof.
  intros He. induction x as [|c x IH].
  - rewrite !str_app_nil_l. simpl. by rewrite He.
  - rewrite !str_app_cons. simpl. by rewrite slash_free_sep, IH.
Qed.

Lemma endswith_sep_split h :
  endswith_sep h = true → ∃ x, h = x +:+ "/".
Proof.
  induction h as [|c h IH]; [done|]. destruct h as [|c' h].
  - simpl. intros ->%bool_decide_eq_true. by exists EmptyString.
  - intros Hh. destruct (IH Hh) as [x ->].
    exists (String c x). by rewrite str_app_cons.
Qed.

Lemma all_sep_endswith h :
  all_sep h = true → is_empty h = false → endswith_sep h = true.
Proof.
  induction h as [|c h IH]; [done|]. intros [Hc Hh]%andb_true_iff _.
  destruct h as [|c' h]; [done|]. by apply IH.
Qed.

Lemma all_sep_snoc x : all_sep (x +:+ "/") = all_sep x.
Proof.
  induction x as [|c x IH]; [done|]. rewrite str_app_cons. simpl.
  by rewrite IH.
Qed.

Lemma is_empty_snoc x c : is_empty (x +:+ String c EmptyString) = false.
Proof. destruct x; [done|]. by rewrite str_app_cons. Qed.

Lemma rstrip_sep_all s : all_sep s = true → rstrip_sep s = EmptyString.
Proof.
  induction s as [|c s IH]; [done|]. intros [Hc Hs]%andb_true_iff.
  simpl. by rewrite (IH Hs), Hc.
Qed.

Lemma rstrip_sep_not_all s :
  all_sep s = false →
  is_empty (rstrip_sep s) = false ∧ endswith_sep (rstrip_sep s) = false ∧
  all_sep (rstrip_sep s) = false.
Proof.
  induction s as [|c s IH]; [done|]. intros Hs. simpl in *.
  destruct (all_sep s) eqn:Hall.
  - rewrite (rstrip_sep_all _ Hall). rewrite andb_true_r in Hs.
    rewrite Hs. simpl. by rewrite Hs.
  - destruct (IH eq_refl) as (Hne & Hend & Hnot).
    destruct (rstrip_sep s) as [|c' t]; [done|].
    split; [done|]. split; [done|]. simpl in *. rewrite Hnot.
    apply andb_false_r.
Qed.

Lemma rstrip_sep_id s : endswith_sep s = false → rstrip_sep s = s.
Proof.
  induction s as [|c s IH]; [done|]. destruct s as [|c' s].
  - simpl. by intros ->.
  - intros Hs. cbn [rstrip_sep] in *. by rewrite (IH Hs).
Qed.

Lemma rstrip_sep_snoc x : rstrip_sep (x +:+ "/") = rstrip_sep x.
Proof.
  induction x as [|c x IH]; [done|]. rewrite str_app_cons. simpl.
  by rewrite IH.
Qed.

Lemma slash_free_relative e : slash_free e = true → startswith_sep e = false.
Proof.
  destruct e as [|c e]; [done|]. simpl.
  by intros [->%negb_true_iff _]%andb_true_iff.
Qed.

(** What [dirname] returns is empty, or made of separators only, or ends
    in no separator. *)
Lemma dirname_shape p :
  dirname p = EmptyString ∨
  (is_empty (dirname p) = false ∧ all_sep (dirname p) = true) ∨
  (is_empty (dirname p) = false ∧ all_sep (dirname p) = false ∧
   endswith_sep (dirname p) = false).
Proof.
  unfold dirname. destruct (head_of p) as [|c h] eqn:Hhead; [by left|].
  right. cbn [is_empty negb andb].
  destruct (all_sep (String c h)) eqn:Hall; [by left|].
  right. cbn [negb]. by destruct (rstrip_sep_not_all _ Hall) as (? & ? & ?).
Qed.

(** A file name joined to the directory part of a path has that directory
    part again. *)
Lemma dirname_join p name :
  slash_free name = true → dirname (join (dirname p) name) = dirname p.
Proof.
  intros Hname. unfold join. rewrite (slash_free_relative _ Hname).
  destruct (dirname_shape p) as [-> | [[Hne Hall]|(Hne & Hall & Hend)]].
  - cbn [is_empty orb]. rewrite str_app_nil_l. unfold dirname.
    by rewrite (head_of_slash_free _ Hname).
  - rewrite (all_sep_endswith _ Hall Hne), orb_true_r.
    destruct (endswith_sep_split _ (all_sep_endswith _ Hall Hne)) as [x Hx].
    rewrite Hx in Hall |- *. rewrite str_app_assoc, str_app_cons, str_app_nil_l.
    unfold dirname. rewrite (head_of_sep _ _ Hname), Hall.
    by rewrite andb_false_r.
  - rewrite Hne, Hend. cbn [orb]. rewrite str_app_cons, str_app_nil_l.
    unfold dirname at 1. rewrite (head_of_sep _ _ Hname).
    rewrite is_empty_snoc, all_sep_snoc, Hall. cbn [negb andb].
    by rewrite rstrip_sep_snoc, rstrip_sep_id.
Qed.

(** X15.  The default configuration file lies in the directory of the
    script: its directory part is that of the script's own path, whether
    that path is relative, absolute, a bare file name or directly under the
    root. *)
Theorem default_config_beside_script file :
  dirname (default_config_file file) = dirname file.
Proof. by apply dirname_join. Qed.

(** * The further properties of [build_tree] on the scenarios *)

Lemma project_fs_quiet : inspections_quiet project_fs.
Proof.
  intros p. unfold project_fs, isdir, isfile.
  split; table_rows; by eexists.
Qed.

Lemma vanishing_fs_quiet : inspections_quiet vanishing_fs.
Proof.
  intros p. unfold vanishing_fs, isdir, isfile.
  split; table_rows; by eexists.
Qed.

(** [a.py], two levels below [/proj]. *)
Lemma exclusions_hold_at_every_depth_witness :
  node_allowed {[ ".venv" ]} ∅ (Node (file_label "a.py") []).
Proof.
  apply (exclusions_hold_at_every_depth project_fs {[ ".venv" ]} ∅ 3 "/proj"
           project_run); [exact project_tree|].
  change (descendants (tree_of project_run))
    with [Node (file_label "readme.md") [];
          Node (dir_label "src") [Node (file_label "a.py") []];
          Node (file_label "a.py") []].
  do 2 apply list_elem_of_further. apply list_elem_of_here.
Defined.

Example vanishing_tree :
  build_tree vanishing_fs ∅ ∅ 2 "/r" None = Some vanishing_run.
Proof. vm_compute. reflexivity. Qed.

(** On [vanishing_fs] the listing of [/r/gone] fails, and its exception
    leaves the call on [/r]. *)
Lemma only_listing_failures_escape_witness :
  FileNotFoundError ≠ PermissionError ∧
  ∃ p, last (calls vanishing_run) = Some (Listdir p) ∧
       listdir vanishing_fs p = Raise FileNotFoundError.
Proof.
  destruct (only_listing_failures_escape vanishing_fs ∅ ∅ 2 "/r" None
              vanishing_run FileNotFoundError vanishing_tree eq_refl)
    as [Hne Hlast].
  split; [exact Hne|exact (Hlast vanishing_fs_quiet)].
Defined.

(** The root of the scenario: [.venv] is left out, [readme.md] comes before
    [src]. *)
Lemma children_are_the_accepted_entries_witness :
  label <$> children (tree_of project_run) =
  omap (classify project_fs {[ ".venv" ]} ∅ "/proj")
       (sorted ["src"; "readme.md"; ".venv"]).
Proof.
  exact (children_are_the_accepted_entries project_fs {[ ".venv" ]} ∅ 3
           "/proj" project_run ["src"; "readme.md"; ".venv"]
           project_fs_quiet project_tree eq_refl eq_refl).
Defined.


(** [/proj/src] is listed as the entry [src] of the root; [/proj/.venv] is
    not listed. *)
Lemma only_accepted_directories_are_listed_witness :
  "/proj/src" = "/proj" ∨
  listed_as_entry project_fs {[ ".venv" ]} "/proj" (calls project_run)
    "/proj/src".
Proof.
  apply (only_accepted_directories_are_listed project_fs {[ ".venv" ]} ∅ 3
           "/proj" None project_run); [exact project_tree|].
  do 6 apply list_elem_of_further. apply list_elem_of_here.
Defined.
